(** * FdTransport: a byte-stream transport over a pair of file descriptors

    Shallow embedding of [python/tvm/micro/transport/fd.py].

    The Python methods run against the operating system, so every method is
    a computation in a state-and-exception monad over a [World]: the
    process's descriptor table together with the trace of the system calls
    issued so far.  State changes made before an exception is raised are
    kept, as in Python.  What the kernel and the peer answer to a system
    call is not fixed by the source; it is supplied by an environment [Env],
    a function of the history, over which the general theorems quantify. *)

From Stdlib Require Import Strings.Byte.
From Equations Require Import Equations.
From stdpp Require Import gmap list.

Local Open Scope Z_scope.

(** ** Data *)

(** A byte string ([bytes] in Python). *)
Abbreviation bytes := (list byte).

(** Exceptions the module raises or lets through.  [OSError] carries the
    errno of a failed system call; [TypeError], [ValueError] and
    [OverflowError] are what the library raises on ill-typed or out-of-range
    arguments, before any system call. *)
Inductive Exn :=
| FdConfigurationError
| IoTimeoutError
| TransportClosedError
| OSError (errno : Z)
| TypeError
| ValueError
| OverflowError.

Definition EBADF : Z := 9.
Definition EAGAIN : Z := 11.
Definition EINVAL : Z := 22.

(** [os.O_NONBLOCK]; the Linux value 0o4000. *)
Definition O_NONBLOCK : Z := 2048.

(** Limits of the C library: the size of an [fd_set], the range of an
    [int]; and a bound below the largest timeout [select] accepts. *)
Definition FD_SETSIZE : Z := 1024.
Definition INT_MIN : Z := -2147483648.
Definition INT_MAX : Z := 2147483647.
Definition TIMEOUT_MAX : Z := 9223372036.

(** Outcome of a Python call: a value, or a raised exception. *)
Inductive Res (A : Type) :=
| Ok (a : A)
| Raise (e : Exn).
Arguments Ok {A} a.
Arguments Raise {A} e.

(** Outcome of a system call as the kernel reports it. *)
Inductive SysRes (A : Type) :=
| Done (a : A)
| Errno (e : Z).
Arguments Done {A} a.
Arguments Errno {A} e.

(** One entry per system call issued, with its arguments and its outcome.
    Clock readings and timeouts are in integral clock ticks. *)
Inductive Event :=
| EvMonotonic (t : Z)
| EvGetFl (fd : Z) (r : SysRes Z)
| EvSetFl (fd arg : Z) (r : SysRes Z)
| EvSelect (rl wl xl : list Z) (timeout : option Z)
           (r : SysRes (list Z * list Z * list Z))
| EvRead (fd n : Z) (r : SysRes bytes)
| EvWrite (fd : Z) (buf : bytes) (r : SysRes nat)
| EvClose (fd : Z) (r : SysRes unit).

(** The part of the process state the transport acts on: the descriptors
    that are open, each with its status flags, and the system calls issued
    so far (oldest first).  Flags are kept per descriptor: two descriptors
    that share one open file description (after [dup]) are not modelled,
    and nothing below is stated about the flags of a descriptor other than
    the one a call is made on. *)
Record World := mkWorld {
  fdtab : gmap Z Z;
  trace : list Event
}.

(** Everything the source leaves to the outside: the monotonic clock, what
    [F_SETFL] stores and returns, which descriptors [select] reports, what a
    [read] or a [write] on an open descriptor yields.  Each answer may
    depend on the whole history. *)
Record Env := mkEnv {
  clock : list Event → Z;
  setfl_out : list Event → Z → Z → Z → Z * Z;
  select_out : list Event → list Z → list Z → list Z → option Z →
               SysRes (list Z * list Z * list Z);
  read_out : list Event → Z → Z → SysRes bytes;
  write_out : list Event → Z → bytes → SysRes nat
}.

(** Values of the dynamically typed parameters of [_await_ready]. *)
Inductive pyval :=
| VNone
| VNum (x : Z)
| VFds (l : list (option Z)).

(** A descriptor-like constructor argument: an [int], or an object with a
    [fileno()] method. *)
Inductive FdLike :=
| RawFd (fd : Z)
| FileObj (fileno : Z).

(** The instance attributes.  No method assigns them after [__init__]. *)
Record FdTransport := mkFdTransport {
  read_fd : option Z;
  write_fd : option Z
}.

(** ** The monad *)

Definition M (A : Type) : Type := World → Res A * World.

#[global] Instance M_ret : MRet M := λ A a w, (Ok a, w).
#[global] Instance M_bind : MBind M := λ A B f m w,
  match m w with
  | (Ok a, w') => f a w'
  | (Raise e, w') => (Raise e, w')
  end.

Definition raise {A} (e : Exn) : M A := λ w, (Raise e, w).

Definition emit (ev : Event) (w : World) : World :=
  mkWorld (fdtab w) (trace w ++ [ev]).

Definition of_sys {A} (r : SysRes A) : Res A :=
  match r with
  | Done a => Ok a
  | Errno e => Raise (OSError e)
  end.

Definition is_open (w : World) (fd : Z) : bool := bool_decide (is_Some (fdtab w !! fd)).

Definition is_nil {A} (l : list A) : bool :=
  match l with [] => true | _ => false end.

(** ** System calls *)

Section Transport.
Context (E : Env).

(** [time.monotonic()] *)
Definition time_monotonic : M Z := λ w,
  let t := clock E (trace w) in (Ok t, emit (EvMonotonic t) w).

(** What [fcntl.fcntl] does with a number that is not an open descriptor.
    The library converts the argument to a C [int] and refuses a negative
    one before any system call; otherwise the kernel answers [EBADF].  (The
    kernel hands out descriptors from 0 up, so a number outside these
    bounds is never open.) *)
Definition fcntl_not_open (ev : Event) (fd : Z) : M Z := λ w,
  if (fd <? INT_MIN) || (INT_MAX <? fd) then (Raise OverflowError, w)
  else if fd <? 0 then (Raise ValueError, w)
  else (Raise (OSError EBADF), emit ev w).

(** [fcntl.fcntl(fd, fcntl.F_GETFL)] *)
Definition fcntl_getfl (fd : Z) : M Z := λ w,
  match fdtab w !! fd with
  | None => fcntl_not_open (EvGetFl fd (Errno EBADF)) fd w
  | Some fl => (Ok fl, emit (EvGetFl fd (Done fl)) w)
  end.

(** [fcntl.fcntl(fd, fcntl.F_SETFL, arg)]: the value returned is the one
    the C call returns, not the flags. *)
Definition fcntl_setfl (fd arg : Z) : M Z := λ w,
  match fdtab w !! fd with
  | None => fcntl_not_open (EvSetFl fd arg (Errno EBADF)) fd w
  | Some fl =>
      let '(fl', ret) := setfl_out E (trace w) fd fl arg in
      (Ok ret, mkWorld (<[fd := fl']> (fdtab w)) (trace w ++ [EvSetFl fd arg (Done ret)]))
  end.

(** [os.close(fd)] *)
Definition os_close (fd : Z) : M unit := λ w,
  match fdtab w !! fd with
  | None => (Raise (OSError EBADF), emit (EvClose fd (Errno EBADF)) w)
  | Some _ => (Ok tt, mkWorld (delete fd (fdtab w)) (trace w ++ [EvClose fd (Done tt)]))
  end.

(** [os.read(fd, n)], for counts up to the largest [ssize_t]; a larger
    count, which the library refuses, is not told apart. *)
Definition os_read (fd : option Z) (n : Z) : M bytes := λ w,
  match fd with
  | None => (Raise TypeError, w)
  | Some d =>
      if n <? 0 then (Raise (OSError EINVAL), w)
      else if is_open w d then
        let r := read_out E (trace w) d n in (of_sys r, emit (EvRead d n r) w)
      else (Raise (OSError EBADF), emit (EvRead d n (Errno EBADF)) w)
  end.

(** [os.write(fd, data)] *)
Definition os_write (fd : option Z) (data : bytes) : M nat := λ w,
  match fd with
  | None => (Raise TypeError, w)
  | Some d =>
      if is_open w d then
        let r := write_out E (trace w) d data in (of_sys r, emit (EvWrite d data r) w)
      else (Raise (OSError EBADF), emit (EvWrite d data (Errno EBADF)) w)
  end.

(** The timeout argument of [select]: [None], or a number that is not
    negative. *)
Definition select_timeout (timeout : pyval) : Res (option Z) :=
  match timeout with
  | VNone => Ok None
  | VNum t => if t <? 0 then Raise ValueError else Ok (Some t)
  | VFds _ => Raise TypeError
  end.

(** A list argument of [select] is turned into a descriptor set element by
    element, [i] being the index of the next element: an element that is
    no descriptor is a [TypeError], a number outside a C [int] an
    [OverflowError], a negative number or one from [FD_SETSIZE] on a
    [ValueError], and so is an element past the first [FD_SETSIZE]. *)
Fixpoint fd_set_from (i : nat) (l : list (option Z)) : Res (list Z) :=
  match l with
  | [] => Ok []
  | None :: _ => Raise TypeError
  | Some d :: l' =>
      if (d <? INT_MIN) || (INT_MAX <? d) then Raise OverflowError
      else if (d <? 0) || (FD_SETSIZE <=? d) then Raise ValueError
      else if FD_SETSIZE <=? Z.of_nat i then Raise ValueError
      else match fd_set_from (S i) l' with
           | Ok ds => Ok (d :: ds)
           | Raise e => Raise e
           end
  end.

Definition fd_set_of (v : pyval) : Res (list Z) :=
  match v with
  | VFds l => fd_set_from 0 l
  | _ => Raise TypeError
  end.

(** [select.select(rlist, wlist, xlist, timeout)]: the library checks the
    timeout, then the three lists in turn, and only then calls the
    kernel. *)
Definition select_select (rlist wlist xlist timeout : pyval)
  : M (list Z * list Z * list Z) := λ w,
  match select_timeout timeout with
  | Raise e => (Raise e, w)
  | Ok timeout =>
      match fd_set_of rlist with
      | Raise e => (Raise e, w)
      | Ok rl =>
          match fd_set_of wlist with
          | Raise e => (Raise e, w)
          | Ok wl =>
              match fd_set_of xlist with
              | Raise e => (Raise e, w)
              | Ok xl =>
                  if forallb (is_open w) (rl ++ wl ++ xl) then
                    let r := select_out E (trace w) rl wl xl timeout in
                    (of_sys r, emit (EvSelect rl wl xl timeout r) w)
                  else (Raise (OSError EBADF),
                        emit (EvSelect rl wl xl timeout (Errno EBADF)) w)
              end
          end
      end
  end.

(** Python's [a - b] and [a + b] on the values at hand. *)
Definition py_sub (a : pyval) (b : Z) : M Z :=
  match a with
  | VNum x => mret (x - b)
  | _ => raise TypeError
  end.

Definition py_add (a b : pyval) : M pyval :=
  match a, b with
  | VNum x, VNum y => mret (VNum (x + y))
  | VFds l, VFds l' => mret (VFds (l ++ l'))
  | _, _ => raise TypeError
  end.

Definition is_None (v : pyval) : bool :=
  match v with VNone => true | _ => false end.

(** ** The methods of [FdTransport] *)

Definition fd_number (fd : FdLike) : Z :=
  match fd with
  | RawFd n => n
  | FileObj n => n
  end.

Definition _validate_configure_fd (fd : FdLike) : M Z :=
  let fd := fd_number fd in
  flag ← fcntl_getfl fd;
  if negb (Z.land flag O_NONBLOCK =? 0) then mret fd
  else
    flag ← fcntl_setfl fd (Z.lor O_NONBLOCK flag);
    if Z.land flag O_NONBLOCK =? 0 then raise FdConfigurationError
    else mret fd.

Definition __init__ (read_fd write_fd : FdLike) : M FdTransport :=
  r ← _validate_configure_fd read_fd;
  w ← _validate_configure_fd write_fd;
  mret (mkFdTransport (Some r) (Some w)).

Definition open (self : FdTransport) : M unit := mret tt.

Definition close (self : FdTransport) : M unit :=
  (match read_fd self with
   | Some fd => os_close fd
   | None => mret tt
   end) ;;
  match write_fd self with
  | Some fd => os_close fd
  | None => mret tt
  end.

Definition _await_ready (self : FdTransport)
    (rlist wlist timeout_sec end_time : pyval) : M (option bool) :=
  if is_None end_time then mret None
  else
    timeout_sec ← (if is_None timeout_sec then
                     now ← time_monotonic;
                     d ← py_sub end_time now;
                     mret (VNum (Z.max 0 d))
                   else mret timeout_sec);
    xs ← py_add rlist wlist;
    ready ← select_select rlist wlist xs timeout_sec;
    match ready with
    | (rlist, wlist, xlist) =>
        if is_nil rlist && is_nil wlist && is_nil xlist then raise IoTimeoutError
        else if negb (is_nil xlist) then mret (Some true)
        else mret None
    end.

(** [end_time = None if timeout_sec is None else time.monotonic() + timeout_sec] *)
Definition deadline (timeout_sec : option Z) : M pyval :=
  match timeout_sec with
  | None => mret VNone
  | Some t => now ← time_monotonic; mret (VNum (now + t))
  end.

Definition read (self : FdTransport) (n : Z) (timeout_sec : option Z) : M bytes :=
  end_time ← deadline timeout_sec;
  _await_ready self (VFds [read_fd self]) (VFds []) VNone end_time ;;
  to_return ← os_read (read_fd self) n;
  if is_nil to_return then close self ;; raise TransportClosedError
  else mret to_return.

(** One pass through the body of the [while] loop of [write], up to the
    test of [num_written]. *)
Definition write_attempt (self : FdTransport) (end_time : pyval) (data : bytes) : M nat :=
  _await_ready self end_time (VFds []) (VFds [write_fd self]) VNone ;;
  os_write (write_fd self) data.

(** The [while data:] loop.  A pass that goes on has written at least one
    byte, and [data[num_written:]] is then shorter than [data]. *)
Equations? write_loop (self : FdTransport) (end_time : pyval) (data : bytes) (w : World)
  : Res unit * World by wf (length data) lt :=
  write_loop self end_time [] w := (Ok tt, w);
  write_loop self end_time (b :: bs) w with write_attempt self end_time (b :: bs) w := {
    | (Raise e, w1) := (Raise e, w1);
    | (Ok O, w1) := (close self ;; raise TransportClosedError) w1;
    | (Ok (S k), w1) := write_loop self end_time (drop (S k) (b :: bs)) w1 }.
Proof. simpl. rewrite length_drop. lia. Qed.

Definition write (self : FdTransport) (data : bytes) (timeout_sec : option Z) : M nat :=
  end_time ← deadline timeout_sec;
  let data_len := length data in
  write_loop self end_time data ;;
  mret data_len.

End Transport.

(** ** Observations on a trace *)

Definition is_clock (ev : Event) : bool :=
  match ev with EvMonotonic _ => true | _ => false end.
Definition is_select (ev : Event) : bool :=
  match ev with EvSelect _ _ _ _ _ => true | _ => false end.
Definition is_read (ev : Event) : bool :=
  match ev with EvRead _ _ _ => true | _ => false end.
Definition is_write (ev : Event) : bool :=
  match ev with EvWrite _ _ _ => true | _ => false end.
Definition is_close (ev : Event) : bool :=
  match ev with EvClose _ _ => true | _ => false end.

(** The bytes the kernel took in a system call: the first [k] bytes of the
    buffer of a [write] that returned [k]. *)
Definition accepted (ev : Event) : bytes :=
  match ev with
  | EvWrite _ buf (Done k) => take k buf
  | _ => []
  end.

(** All the bytes taken along a trace, in order. *)
Definition sent (evs : list Event) : bytes := concat (accepted <$> evs).


(** The part of [read] before the [os.read] call: the deadline and the
    readiness wait on the read descriptor. *)
Definition read_wait (E : Env) (self : FdTransport) (timeout_sec : option Z)
  : M (option bool) :=
  end_time ← deadline E timeout_sec;
  _await_ready E self (VFds [read_fd self]) (VFds []) VNone end_time.

(** The part of [read] from the [os.read] call on. *)
Definition read_attempt (E : Env) (self : FdTransport) (n : Z) : M bytes :=
  to_return ← os_read E (read_fd self) n;
  if is_nil to_return then close self ;; raise TransportClosedError
  else mret to_return.

(** The transport is open in [w]: it holds the two different descriptors
    [rfd] and [wfd], and both are open. *)
Definition transport_open (self : FdTransport) (rfd wfd : Z) (w : World) : Prop :=
  read_fd self = Some rfd ∧ write_fd self = Some wfd ∧ rfd ≠ wfd ∧
  is_Some (fdtab w !! rfd) ∧ is_Some (fdtab w !! wfd).

(** Neither descriptor of the transport is open in [w]. *)
Definition released (self : FdTransport) (w : World) : Prop :=
  (∀ fd, read_fd self = Some fd → fdtab w !! fd = None) ∧
  (∀ fd, write_fd self = Some fd → fdtab w !! fd = None).

(** A call of one of the two I/O methods. *)
Inductive Call :=
| CallRead (n : Z) (timeout_sec : option Z)
| CallWrite (data : bytes) (timeout_sec : option Z).

Definition raised {A} (r : Res A) : option Exn :=
  match r with
  | Ok _ => None
  | Raise e => Some e
  end.

(** The exception a call ends with, if any, and the world it leaves. *)
Definition outcome (E : Env) (self : FdTransport) (c : Call) (w : World)
  : option Exn * World :=
  match c with
  | CallRead n t => let '(r, w') := read E self n t w in (raised r, w')
  | CallWrite data t => let '(r, w') := write E self data t w in (raised r, w')
  end.

(** The kernel's contract for [read]: at most the requested count. *)
Definition read_bounded (E : Env) : Prop :=
  ∀ h fd n b, (0 ≤ n)%Z → read_out E h fd n = Done b → (Z.of_nat (length b) ≤ n)%Z.

(** Big-step reading of the [while] loop of [write]: what one run of the
    loop from [data] in [w] ends with. *)
Inductive write_run (E : Env) (self : FdTransport) (end_time : pyval)
  : bytes → World → Res unit → World → Prop :=
| run_done w :
    write_run E self end_time [] w (Ok tt) w
| run_raise data w e w1 :
    data ≠ [] →
    write_attempt E self end_time data w = (Raise e, w1) →
    write_run E self end_time data w (Raise e) w1
| run_zero data w w1 r w2 :
    data ≠ [] →
    write_attempt E self end_time data w = (Ok 0%nat, w1) →
    (close self ;; raise TransportClosedError) w1 = (r, w2) →
    write_run E self end_time data w r w2
| run_more data w k w1 r w2 :
    data ≠ [] →
    write_attempt E self end_time data w = (Ok (S k), w1) →
    write_run E self end_time (drop (S k) data) w1 r w2 →
    write_run E self end_time data w r w2.

(** ** Concrete environments and worlds *)

(** A Linux-like kernel: [F_SETFL] stores the requested flags and returns 0. *)
Definition linux_setfl : list Event → Z → Z → Z → Z * Z := λ _ _ _ arg, (arg, 0).

(** The peer neither sends nor takes anything: no descriptor ever becomes
    ready, and a non-blocking [read] or [write] fails with [EAGAIN]. *)
Definition stalled : Env :=
  mkEnv (λ _, 100) linux_setfl (λ _ _ _ _ _, Done ([], [], []))
        (λ _ _ _, Errno EAGAIN) (λ _ _ _, Errno EAGAIN).

Definition hello : bytes := [x68; x65; x6c; x6c; x6f].

(** The peer has sent [hello] and takes at most two bytes per [write]. *)
Definition flowing : Env :=
  mkEnv (λ h, 100 + Z.of_nat (length h)) linux_setfl
        (λ _ rl wl _ _, Done (rl, wl, []))
        (λ _ _ n, Done (take (Z.to_nat n) hello))
        (λ _ _ buf, Done (Nat.min 2 (length buf))).

(** The peer has shut down: [read] and [write] return zero. *)
Definition hung_up : Env :=
  mkEnv (λ _, 100) linux_setfl (λ _ rl wl _ _, Done (rl, wl, []))
        (λ _ _ _, Done []) (λ _ _ _, Done 0%nat).

(** Descriptors 3 and 4 are open, 3 in blocking mode, 4 non-blocking. *)
Definition w34 : World := mkWorld (<[3 := 0]> (<[4 := Z.lor 1 O_NONBLOCK]> ∅)) [].

Definition t34 : FdTransport := mkFdTransport (Some 3) (Some 4).

(** ** Further observations *)

(** Number of [write] and of [select] system calls in a trace. *)
Definition writes (evs : list Event) : nat :=
  length (filter (λ ev, is_write ev = true) evs).
Definition selects (evs : list Event) : nat :=
  length (filter (λ ev, is_select ev = true) evs).

Definition clocks (evs : list Event) : nat :=
  length (filter (λ ev, is_clock ev = true) evs).

(** A transport built on one descriptor for both directions, descriptor 4,
    and the world [__init__] leaves when it builds it in [w34]. *)
Definition t44 : FdTransport := mkFdTransport (Some 4) (Some 4).

Definition w44 : World :=
  mkWorld (fdtab w34)
          [EvGetFl 4 (Done (Z.lor 1 O_NONBLOCK)); EvGetFl 4 (Done (Z.lor 1 O_NONBLOCK))].

(** Descriptors 3 and 4 are open and both in non-blocking mode. *)
Definition w34n : World :=
  mkWorld (<[3 := O_NONBLOCK]> (<[4 := Z.lor 1 O_NONBLOCK]> ∅)) [].


(** * Properties *)

(** ** The monad and the system calls *)

Ltac unmonad := cbv [mbind M_bind mret M_ret raise] in *.

(** Closes a goal [∃ evs, t = trace w ++ evs ∧ Forall P evs] when [t] is
    [trace w] with explicit entries appended. *)
Ltac trace_ext :=
  first [ exists []; split; [by rewrite app_nil_r | constructor]
        | eexists; split; [by rewrite <- ?app_assoc | by repeat constructor] ].

Lemma bind_ok {A B} (m : M A) (f : A → M B) w a w1 :
  m w = (Ok a, w1) → (m ≫= f) w = f a w1.
Proof. intros H. unmonad. by rewrite H. Qed.

Lemma bind_raise {A B} (m : M A) (f : A → M B) w e w1 :
  m w = (Raise e, w1) → (m ≫= f) w = (Raise e, w1).
Proof. intros H. unmonad. by rewrite H. Qed.

Lemma of_sys_raise {A} (r : SysRes A) e :
  of_sys r = Raise e → ∃ errno, r = Errno errno ∧ e = OSError errno.
Proof. destruct r; simpl; [done|]. intros [= <-]. eauto. Qed.

Lemma of_sys_ok {A} (r : SysRes A) a : of_sys r = Ok a → r = Done a.
Proof. destruct r; simpl; congruence. Qed.

(** A [write] attempt leaves the descriptor table alone and adds at most
    its own entry to the trace. *)
Lemma os_write_effect E fd data w r w1 :
  os_write E fd data w = (r, w1) →
  fdtab w1 = fdtab w ∧
  ((w1 = w ∧ r = Raise TypeError) ∨
   ∃ d res, fd = Some d ∧ trace w1 = trace w ++ [EvWrite d data res] ∧ r = of_sys res ∨
            fd = Some d ∧ trace w1 = trace w ++ [EvWrite d data (Errno EBADF)] ∧
            r = Raise (OSError EBADF) ∧ fdtab w !! d = None).
Proof.
  unfold os_write. destruct fd as [d|]; [|intros [= <- <-]; auto].
  unfold is_open. case_bool_decide as Hd; intros [= <- <-]; simpl.
  - split; [done|]. right. exists d, (write_out E (trace w) d data). auto.
  - split; [done|]. right. exists d, (Errno EBADF). right.
    repeat split; try done. by apply eq_None_not_Some.
Qed.

Lemma os_write_ok E fd data w k w1 :
  os_write E fd data w = (Ok k, w1) →
  ∃ d, fd = Some d ∧ w1 = emit (EvWrite d data (Done k)) w.
Proof.
  unfold os_write. destruct fd as [d|]; [|done].
  destruct (is_open w d); [|done].
  destruct (write_out E (trace w) d data) eqn:Hw; simpl; [|done].
  intros [= -> <-]. eauto.
Qed.

(** In [write] the readiness wait is entered with [end_time] unset, so a
    pass of the loop is the [write] system call alone. *)
Lemma write_attempt_unfold E self end_time data w :
  write_attempt E self end_time data w = os_write E (write_fd self) data w.
Proof. reflexivity. Qed.

Lemma write_attempt_effect E self end_time data w r w1 :
  write_attempt E self end_time data w = (r, w1) →
  fdtab w1 = fdtab w ∧
  ((w1 = w ∧ r = Raise TypeError) ∨
   ∃ d res, write_fd self = Some d ∧ trace w1 = trace w ++ [EvWrite d data res] ∧
            r = of_sys res ∨
            write_fd self = Some d ∧ trace w1 = trace w ++ [EvWrite d data (Errno EBADF)] ∧
            r = Raise (OSError EBADF) ∧ fdtab w !! d = None).
Proof. rewrite write_attempt_unfold. apply os_write_effect. Qed.

Lemma write_attempt_ok E self end_time data w k w1 :
  write_attempt E self end_time data w = (Ok k, w1) →
  ∃ d, write_fd self = Some d ∧ w1 = emit (EvWrite d data (Done k)) w.
Proof. rewrite write_attempt_unfold. apply os_write_ok. Qed.

Lemma write_loop_run E self end_time data w :
  write_run E self end_time data w (write_loop E self end_time data w).1
                                     (write_loop E self end_time data w).2.
Proof.
  funelim (write_loop E self end_time data w).
  - constructor.
  - eapply run_zero; [done|exact Heq|]. apply surjective_pairing.
  - eapply run_more; [done|exact Heq|]. apply H.
  - by eapply run_raise.
Qed.

(** ** [close] *)

Lemma os_close_effect fd w r w1 :
  os_close fd w = (r, w1) →
  (r = Ok tt ∧ is_Some (fdtab w !! fd) ∧ fdtab w1 = delete fd (fdtab w) ∧
   trace w1 = trace w ++ [EvClose fd (Done tt)]) ∨
  (r = Raise (OSError EBADF) ∧ fdtab w !! fd = None ∧ fdtab w1 = fdtab w ∧
   trace w1 = trace w ++ [EvClose fd (Errno EBADF)]).
Proof.
  unfold os_close. destruct (fdtab w !! fd) eqn:Hfd; intros [= <- <-]; simpl.
  - left. eauto.
  - right. eauto.
Qed.

(** [close] issues nothing but [os.close] calls, and fails only with the
    [EBADF] of an [os.close] on a descriptor that is not open. *)
Lemma close_effect self w r w1 :
  close self w = (r, w1) →
  (r = Ok tt ∨ r = Raise (OSError EBADF)) ∧
  ∃ evs, trace w1 = trace w ++ evs ∧ Forall (λ ev, is_close ev = true) evs.
Proof.
  unfold close, os_close. unmonad.
  destruct (read_fd self) as [rfd|], (write_fd self) as [wfd|]; simpl;
    repeat case_match; intros; simplify_eq; simpl; (split; [auto|]); trace_ext.
Qed.

(** On an open transport [close] releases the read descriptor, then the
    write descriptor, and returns. *)
Lemma close_open self w r wr :
  read_fd self = Some r → write_fd self = Some wr → r ≠ wr →
  is_Some (fdtab w !! r) → is_Some (fdtab w !! wr) →
  close self w =
    (Ok tt, mkWorld (delete wr (delete r (fdtab w)))
                    (trace w ++ [EvClose r (Done tt); EvClose wr (Done tt)])).
Proof.
  intros Hr Hw Hne [fr Hfr] [fw Hfw]. unfold close. rewrite Hr, Hw. unmonad.
  unfold os_close at 1. rewrite Hfr. unfold os_close. simpl.
  rewrite lookup_delete_ne by done. rewrite Hfw. by rewrite <- app_assoc.
Qed.

Lemma close_then_raise_effect {A} self w (r : Res A) w1 :
  (close self ;; raise TransportClosedError) w = (r, w1) →
  (r = Raise TransportClosedError ∨ r = Raise (OSError EBADF)) ∧
  ∃ evs, trace w1 = trace w ++ evs ∧ Forall (λ ev, is_close ev = true) evs.
Proof.
  unmonad. destruct (close self w) as [[[]|e] w0] eqn:Hc; intros [= <- <-];
    apply close_effect in Hc as [[?|?] ?]; simplify_eq; auto.
Qed.

(** ** The loop of [write] *)

Lemma write_run_extends E self end_time data w r w' :
  write_run E self end_time data w r w' → ∃ evs, trace w' = trace w ++ evs.
Proof.
  induction 1 as [w|data w e w1 _ Hw|data w w1 r w2 _ Hw Hc|data w k w1 r w2 _ Hw _ IH].
  - exists []. by rewrite app_nil_r.
  - apply write_attempt_effect in Hw as [_ [[-> _]|(d & res & [(_ & T & _)|(_ & T & _)])]];
      eauto. exists []. by rewrite app_nil_r.
  - apply write_attempt_ok in Hw as (d & _ & ->).
    apply close_then_raise_effect in Hc as [_ (evs & T & _)].
    eexists. rewrite T. simpl. by rewrite <- app_assoc.
  - apply write_attempt_ok in Hw as (d & _ & ->). destruct IH as [evs T].
    eexists. rewrite T. simpl. by rewrite <- app_assoc.
Qed.

(** The loop never enters [select] and never reports a timeout: what it adds
    to the trace are [write] calls and the [close] calls of the exit on a
    zero-length write. *)
Lemma write_run_no_wait E self end_time data w r w' :
  write_run E self end_time data w r w' →
  r ≠ Raise IoTimeoutError ∧
  ∀ evs, trace w' = trace w ++ evs →
         Forall (λ ev, is_write ev = true ∨ is_close ev = true) evs.
Proof.
  induction 1 as [w|data w e w1 _ Hw|data w w1 r w2 _ Hw Hc|data w k w1 r w2 _ Hw Hrun IH].
  - split; [done|]. intros evs T. rewrite <- (app_nil_r (trace w)) in T at 1.
    apply app_inv_head in T as <-. constructor.
  - apply write_attempt_effect in Hw as [_ [[-> Hr]|(d & res & [(_ & T & Hr)|(_ & T & Hr & _)])]].
    + split; [by simplify_eq|]. intros evs T. rewrite <- (app_nil_r (trace w)) in T at 1.
      apply app_inv_head in T as <-. constructor.
    + split; [symmetry in Hr; by apply of_sys_raise in Hr as (? & _ & ->)|].
      intros evs T'. rewrite T in T'.
      apply app_inv_head in T' as <-. repeat constructor.
    + split; [by simplify_eq|]. intros evs T'. rewrite T in T'.
      apply app_inv_head in T' as <-. repeat constructor.
  - apply write_attempt_ok in Hw as (d & _ & ->).
    apply close_then_raise_effect in Hc as [Hr (cevs & T & Hc)].
    split; [by destruct Hr as [-> | ->]|]. intros evs T'. rewrite T in T'. simpl in T'.
    rewrite <- app_assoc in T'. apply app_inv_head in T' as <-.
    constructor; [by left|]. eapply Forall_impl; [exact Hc|]. by right.
  - apply write_attempt_ok in Hw as (d & _ & ->). destruct IH as [Hr IH].
    split; [done|]. intros evs T'.
    destruct (write_run_extends _ _ _ _ _ _ _ Hrun) as [evs' T]. rewrite T in T'. simpl in T'.
    rewrite <- app_assoc in T'. apply app_inv_head in T' as <-.
    constructor; [by left|]. by apply IH.
Qed.

Lemma sent_cons ev evs : sent (ev :: evs) = accepted ev ++ sent evs.
Proof. reflexivity. Qed.

Lemma sent_closes evs : Forall (λ ev, is_close ev = true) evs → sent evs = [].
Proof.
  induction 1 as [|ev evs Hev _ IH]; [done|].
  rewrite sent_cons, IH. by destruct ev.
Qed.

(** Every buffer handed to [os.write] is what is left of the payload after
    the bytes taken so far; a loop that ends normally has had all of the
    payload taken. *)
Lemma write_run_suffix E self end_time data w r w' :
  write_run E self end_time data w r w' →
  ∀ evs, trace w' = trace w ++ evs →
    (∀ pre fd buf res post,
        evs = pre ++ EvWrite fd buf res :: post → sent pre ++ buf = data) ∧
    (r = Ok tt → sent evs = data).
Proof.
  induction 1 as [w|data w e w1 _ Hw|data w w1 r w2 _ Hw Hc|data w k w1 r w2 _ Hw Hrun IH];
    intros evs T.
  - rewrite <- (app_nil_r (trace w)) in T at 1. apply app_inv_head in T as <-.
    split; [|done]. intros [|??] ???? ?; simplify_eq.
  - split; [|done]. intros pre fd buf res post ->.
    apply write_attempt_effect in Hw as [_ [[-> _]|(d & res' & [(_ & T' & _)|(_ & T' & _)])]].
    + rewrite <- (app_nil_r (trace w)) in T at 1. apply app_inv_head in T.
      by destruct pre.
    + rewrite T' in T. apply app_inv_head in T. destruct pre as [|? [|??]]; by simplify_eq/=.
    + rewrite T' in T. apply app_inv_head in T. destruct pre as [|? [|??]]; by simplify_eq/=.
  - apply write_attempt_ok in Hw as (d & _ & ->).
    apply close_then_raise_effect in Hc as [Hr (cevs & T' & Hc)].
    rewrite T' in T. simpl in T. rewrite <- app_assoc in T. apply app_inv_head in T as <-.
    split; [|by destruct Hr as [-> | ->]].
    intros [|ev pre] fd buf res post Heq; simplify_eq/=; [done|].
    rewrite Forall_app, Forall_cons in Hc. by destruct Hc as (_ & ? & _).
  - apply write_attempt_ok in Hw as (d & _ & ->).
    destruct (write_run_extends _ _ _ _ _ _ _ Hrun) as [evs' T']. rewrite T' in T.
    simpl in T. rewrite <- app_assoc in T. apply app_inv_head in T as <-.
    destruct (IH _ T') as [IH1 IH2]. split.
    + intros [|ev pre] fd buf res post Heq; simplify_eq/=; [done|].
      rewrite sent_cons, <- app_assoc, (IH1 pre fd buf res post eq_refl). apply take_drop.
    + intros Hr. simpl ([_] ++ _). rewrite sent_cons, (IH2 Hr). apply take_drop.
Qed.

(** A zero-length [write] on an open transport ends the loop: both
    descriptors are released, in that order, and then
    [TransportClosedError] is raised. *)
Lemma write_run_zero E self end_time data w r w' rfd wfd :
  write_run E self end_time data w r w' →
  read_fd self = Some rfd → write_fd self = Some wfd → rfd ≠ wfd →
  is_Some (fdtab w !! rfd) → is_Some (fdtab w !! wfd) →
  ∀ evs fd buf, trace w' = trace w ++ evs → EvWrite fd buf (Done 0%nat) ∈ evs →
    r = Raise TransportClosedError ∧
    fdtab w' !! rfd = None ∧ fdtab w' !! wfd = None ∧
    ∃ pre, evs = pre ++ [EvWrite wfd buf (Done 0%nat);
                         EvClose rfd (Done tt); EvClose wfd (Done tt)].
Proof.
  intros Hrun Hr Hw Hne.
  induction Hrun as [w|data w e w1 _ Hwr|data w w1 r w2 _ Hwr Hc|data w k w1 r w2 _ Hwr Hrun IH];
    intros Hor How evs fd buf T Hin.
  - rewrite <- (app_nil_r (trace w)) in T at 1. apply app_inv_head in T as <-.
    by apply elem_of_nil in Hin.
  - apply write_attempt_effect in Hwr as [_ [[-> _]|(d & res' & [(_ & T' & Hres)|(_ & T' & _)])]].
    + rewrite <- (app_nil_r (trace w)) in T at 1. apply app_inv_head in T as <-.
      by apply elem_of_nil in Hin.
    + rewrite T' in T. apply app_inv_head in T as <-.
      apply list_elem_of_singleton in Hin. by simplify_eq.
    + rewrite T' in T. apply app_inv_head in T as <-.
      apply list_elem_of_singleton in Hin. by simplify_eq.
  - apply write_attempt_ok in Hwr as (d & Hd & ->). rewrite Hw in Hd. simplify_eq.
    unmonad. rewrite (close_open self _ rfd d) in Hc by done. simplify_eq. simpl in *.
    rewrite <- app_assoc in T. apply app_inv_head in T as <-.
    apply elem_of_cons in Hin as [Hin|Hin].
    + simplify_eq. split; [done|]. rewrite lookup_delete_ne, !lookup_delete_eq by done.
      repeat split. by exists [].
    + repeat (apply elem_of_cons in Hin as [Hin|Hin]; [done|]). by apply elem_of_nil in Hin.
  - apply write_attempt_ok in Hwr as (d & Hd & ->).
    destruct (write_run_extends _ _ _ _ _ _ _ Hrun) as [evs' T']. rewrite T' in T.
    simpl in T. rewrite <- app_assoc in T. apply app_inv_head in T as <-.
    apply elem_of_cons in Hin as [Hin|Hin]; [done|].
    destruct (IH Hor How _ _ _ T' Hin) as (-> & ? & ? & pre & ->).
    repeat split; try done. by exists (EvWrite d data (Done (S k)) :: pre).
Qed.

(** [write] is the deadline computation, the loop, and the return of the
    payload length. *)
Lemma deadline_effect E t w :
  ∃ end_time w0,
    deadline E t w = (Ok end_time, w0) ∧ fdtab w0 = fdtab w ∧
    trace w0 = trace w ++ match t with
                          | None => []
                          | Some _ => [EvMonotonic (clock E (trace w))]
                          end.
Proof.
  destruct t as [t|]; simpl.
  - by eexists _, _.
  - eexists _, _. split; [done|]. by rewrite app_nil_r.
Qed.

Lemma write_run_of E self data t w :
  ∃ end_time w0 r0,
    fdtab w0 = fdtab w ∧
    trace w0 = trace w ++ match t with
                          | None => []
                          | Some _ => [EvMonotonic (clock E (trace w))]
                          end ∧
    write_run E self end_time data w0 r0 (write E self data t w).2 ∧
    (write E self data t w).1 =
      match r0 with Ok _ => Ok (length data) | Raise e => Raise e end.
Proof.
  destruct (deadline_effect E t w) as (end_time & w0 & Hd & Hf & Ht).
  exists end_time, w0, (write_loop E self end_time data w0).1. split; [done|]. split; [done|].
  unfold write. rewrite (bind_ok _ _ _ _ _ Hd). unmonad.
  pose proof (write_loop_run E self end_time data w0) as Hrun.
  destruct (write_loop E self end_time data w0) as [[[]|e] w1]; simpl in *; auto.
Qed.

(** ** [read] *)

Lemma read_split E self n t w :
  read E self n t w = (read_wait E self t ;; read_attempt E self n) w.
Proof.
  unfold read, read_wait, read_attempt. unmonad.
  destruct (deadline E t w) as [[end_time|e] w0]; [|done].
  by destruct (_await_ready E self _ _ _ end_time w0) as [[?|?] ?].
Qed.

(** The readiness wait reads the clock and calls [select]; it touches no
    descriptor. *)
Lemma await_ready_effect E self rlist wlist timeout_sec end_time w r w1 :
  _await_ready E self rlist wlist timeout_sec end_time w = (r, w1) →
  fdtab w1 = fdtab w ∧
  ∃ evs, trace w1 = trace w ++ evs ∧
         Forall (λ ev, is_clock ev = true ∨ is_select ev = true) evs.
Proof.
  unfold _await_ready, select_select, py_add, py_sub, time_monotonic. unmonad.
  intros H. repeat (case_match; simplify_eq/=); (split; [done|]); trace_ext.
Qed.

Lemma read_wait_effect E self t w r w1 :
  read_wait E self t w = (r, w1) →
  fdtab w1 = fdtab w ∧
  ∃ evs, trace w1 = trace w ++ evs ∧
         Forall (λ ev, is_clock ev = true ∨ is_select ev = true) evs.
Proof.
  unfold read_wait. destruct (deadline_effect E t w) as (end_time & w0 & Hd & Hf & Ht).
  rewrite (bind_ok _ _ _ _ _ Hd). intros Ha.
  apply await_ready_effect in Ha as (Hf' & evs & Ht' & Hevs).
  split; [congruence|]. eexists. rewrite Ht', Ht, <- app_assoc. split; [done|].
  apply Forall_app. split; [|done]. destruct t; repeat constructor.
Qed.

(** What [os.read] can do: fail before the system call, or issue one
    [read] whose outcome it passes on. *)
Lemma os_read_effect E fd n w r w1 :
  os_read E fd n w = (r, w1) →
  (w1 = w ∧ (fd = None ∧ r = Raise TypeError ∨ (n < 0)%Z ∧ r = Raise (OSError EINVAL))) ∨
  ∃ d res, fd = Some d ∧ (0 ≤ n)%Z ∧ w1 = emit (EvRead d n res) w ∧ r = of_sys res ∧
           (res = read_out E (trace w) d n ∨ res = Errno EBADF ∧ fdtab w !! d = None).
Proof.
  unfold os_read. destruct fd as [d|]; [|intros [= <- <-]; auto].
  destruct (Z.ltb_spec n 0); [intros [= <- <-]; auto|].
  unfold is_open. case_bool_decide as Hd; intros [= <- <-]; right.
  - eexists d, _. eauto 10.
  - exists d, (Errno EBADF). repeat split; try done. right. split; [done|].
    by apply eq_None_not_Some.
Qed.

Lemma sent_app evs evs' : sent (evs ++ evs') = sent evs ++ sent evs'.
Proof. unfold sent. by rewrite fmap_app, concat_app. Qed.

Lemma sent_deadline (t : option Z) x evs :
  sent (match t with None => [] | Some _ => [EvMonotonic x] end ++ evs) = sent evs.
Proof. by destruct t. Qed.

(** ** [write] as a whole *)

(** [write] never calls [select] and never raises [IoTimeoutError],
    whatever timeout it is given: besides reading the clock it issues
    [write] calls and, on a zero-length write, [close] calls. *)
Lemma write_never_waits E self data t w :
  (write E self data t w).1 ≠ Raise IoTimeoutError.
Proof.
  destruct (write_run_of E self data t w) as (end_time & w0 & r0 & Hf & Ht & Hrun & Hr).
  rewrite Hr. apply write_run_no_wait in Hrun as [Hne _].
  destruct r0; [done|]. congruence.
Qed.

Lemma write_trace E self data t w :
  ∃ evs, trace (write E self data t w).2 = trace w ++ evs ∧
         Forall (λ ev, is_select ev = false) evs.
Proof.
  destruct (write_run_of E self data t w) as (end_time & w0 & r0 & Hf & Ht & Hrun & Hr).
  destruct (write_run_extends _ _ _ _ _ _ _ Hrun) as [evs T].
  apply write_run_no_wait in Hrun as [_ Hevs]. specialize (Hevs _ T).
  eexists. rewrite T, Ht, <- app_assoc. split; [done|]. apply Forall_app. split.
  - destruct t; repeat constructor.
  - eapply Forall_impl; [exact Hevs|]. intros [] [?|?]; done.
Qed.

(** C6: with no deadline ([end_time] is [None]) the readiness wait returns
    at once, whatever it is asked to watch: it returns [None] and leaves
    the world as it was, descriptor table and trace alike, so [select] is
    not called and no descriptor is looked at. *)
Theorem await_ready_without_deadline E self rlist wlist timeout_sec w :
  _await_ready E self rlist wlist timeout_sec VNone w = (Ok None, w).
Proof. reflexivity. Qed.

(** C10: [write] with an empty payload returns 0 for every timeout.  The
    loop body is not entered: the descriptor table is unchanged and the
    only system call is the clock reading made when a timeout is given, so
    there is no [select], no [write], and no exception. *)
Theorem write_empty_returns_zero E self t w :
  write E self [] t w =
    (Ok 0%nat,
     mkWorld (fdtab w)
             (trace w ++ match t with
                         | None => []
                         | Some _ => [EvMonotonic (clock E (trace w))]
                         end)).
Proof.
  unfold write, deadline. destruct t as [t|]; unmonad; simpl; simp write_loop.
  - done.
  - rewrite app_nil_r. by destruct w.
Qed.

(** C7: for a payload of length [L], [write] either raises or returns
    exactly [L]; and when it returns, the bytes taken by its [write] calls,
    in order, are the whole payload. *)
Theorem write_returns_payload_length E self data t w :
  match write E self data t w with
  | (Raise _, _) => True
  | (Ok v, w') =>
      v = length data ∧
      ∃ evs, trace w' = trace w ++ evs ∧ sent evs = data
  end.
Proof.
  destruct (write_run_of E self data t w) as (end_time & w0 & r0 & Hf & Ht & Hrun & Hr).
  destruct (write E self data t w) as [[v|e] w'] eqn:Hw; [|done]. simpl in *.
  destruct r0 as [[]|e]; [|done]. split; [congruence|].
  destruct (write_run_extends _ _ _ _ _ _ _ Hrun) as [evs T].
  destruct (write_run_suffix _ _ _ _ _ _ _ Hrun _ T) as [_ Hs].
  eexists. rewrite T, Ht, <- app_assoc. split; [done|].
  rewrite sent_deadline. by apply Hs.
Qed.

(** C8: along the loop of [write], the buffer handed to each [os.write]
    is exactly the payload without the bytes taken so far, so the bytes
    taken so far followed by that buffer are the payload; and when a
    [write] that took [k] bytes is followed by another, the buffer of the
    second is the buffer of the first without its first [k] bytes. *)
Theorem write_remainder_is_suffix E self data t w :
  ∃ evs, trace (write E self data t w).2 = trace w ++ evs ∧
    (∀ pre fd buf res post,
        evs = pre ++ EvWrite fd buf res :: post →
        sent pre ++ buf = data ∧ buf = drop (length (sent pre)) data) ∧
    (∀ pre fd buf k fd' buf' res' post,
        evs = pre ++ EvWrite fd buf (Done k) :: EvWrite fd' buf' res' :: post →
        buf' = drop k buf).
Proof.
  destruct (write_run_of E self data t w) as (end_time & w0 & r0 & Hf & Ht & Hrun & Hr).
  destruct (write_run_extends _ _ _ _ _ _ _ Hrun) as [evs T].
  destruct (write_run_suffix _ _ _ _ _ _ _ Hrun _ T) as [Hs _].
  set (cl := match t with None => [] | Some _ => [EvMonotonic (clock E (trace w))] end) in *.
  assert (Hkey : ∀ pre fd buf res post,
             cl ++ evs = pre ++ EvWrite fd buf res :: post → sent pre ++ buf = data).
  { intros pre fd buf res post Heq. subst cl. destruct t as [t|]; simpl in Heq.
    - destruct pre as [|ev pre]; simplify_eq/=.
      exact (Hs pre fd buf res post eq_refl).
    - exact (Hs pre fd buf res post Heq). }
  exists (cl ++ evs). rewrite T, Ht, <- app_assoc. split; [done|]. split.
  - intros pre fd buf res post Heq. pose proof (Hkey _ _ _ _ _ Heq) as Hd.
    split; [done|]. by rewrite <- Hd, drop_app_length.
  - intros pre fd buf k fd' buf' res' post Heq.
    pose proof (Hkey _ _ _ _ _ Heq) as H1.
    pose proof (Hkey (pre ++ [EvWrite fd buf (Done k)]) fd' buf' res' post) as H2.
    rewrite <- app_assoc in H2. specialize (H2 Heq).
    rewrite sent_app, <- app_assoc, <- H1 in H2. apply app_inv_head in H2.
    unfold sent in H2. simpl in H2. rewrite app_nil_r in H2.
    rewrite <- (take_drop k buf) in H2 at 2. by apply app_inv_head in H2.
Qed.

(** ** [read] as a whole *)





(** From the [os.read] call on, [read] either fails before any system call
    (no descriptor, or a negative count), or issues one [read] and acts on
    its outcome. *)
Lemma read_attempt_effect E self n w r w' :
  read_attempt E self n w = (r, w') →
  (w' = w ∧ (read_fd self = None ∨ (n < 0)%Z) ∧ ∃ e, r = Raise e) ∨
  ∃ d res,
    read_fd self = Some d ∧ (0 ≤ n)%Z ∧
    (res = read_out E (trace w) d n ∨ res = Errno EBADF ∧ fdtab w !! d = None) ∧
    match res with
    | Errno e => r = Raise (OSError e) ∧ w' = emit (EvRead d n res) w
    | Done [] => (close self ;; raise TransportClosedError) (emit (EvRead d n res) w) = (r, w')
    | Done b => r = Ok b ∧ w' = emit (EvRead d n res) w
    end.
Proof.
  unfold read_attempt. intros H.
  destruct (os_read E (read_fd self) n w) as [r0 w1] eqn:Hr.
  apply os_read_effect in Hr as Hr'.
  destruct Hr' as [[-> Hc]|(d & res & Hd & Hn & -> & -> & Hres)].
  - left. destruct Hc as [[? ->]|[? ->]]; rewrite (bind_raise _ _ _ _ _ Hr) in H;
      simplify_eq; eauto 6.
  - right. exists d, res. repeat (split; [done|]).
    destruct res as [[|b bs]|e]; simpl in *.
    + by rewrite (bind_ok _ _ _ _ _ Hr) in H.
    + rewrite (bind_ok _ _ _ _ _ Hr) in H. simpl in H. unmonad. by simplify_eq.
    + rewrite (bind_raise _ _ _ _ _ Hr) in H. by simplify_eq.
Qed.


(** End of stream on a transport that holds two different open
    descriptors: a [read] whose [os.read] returned zero bytes and a [write]
    one of whose [os.write] calls returned zero both end the same way.  The
    read descriptor and then the write descriptor are closed, these are
    the last system calls of the call, and only then [TransportClosedError]
    is raised, with neither descriptor open any more. *)
Theorem end_of_stream_releases_then_raises E self rfd wfd w :
  transport_open self rfd wfd w →
  (∀ n t evs,
      trace (read E self n t w).2 = trace w ++ evs →
      EvRead rfd n (Done []) ∈ evs →
      (read E self n t w).1 = Raise TransportClosedError ∧
      released self (read E self n t w).2 ∧
      ∃ pre, evs = pre ++ [EvRead rfd n (Done []);
                           EvClose rfd (Done tt); EvClose wfd (Done tt)]) ∧
  (∀ data t evs fd buf,
      trace (write E self data t w).2 = trace w ++ evs →
      EvWrite fd buf (Done 0%nat) ∈ evs →
      (write E self data t w).1 = Raise TransportClosedError ∧
      released self (write E self data t w).2 ∧
      ∃ pre, evs = pre ++ [EvWrite wfd buf (Done 0%nat);
                           EvClose rfd (Done tt); EvClose wfd (Done tt)]).
Proof.
  intros (Hr & Hw & Hne & Hor & How). split.
  - intros n t evs T Hin. rewrite read_split in *.
    destruct (read_wait E self t w) as [[v|e] w1] eqn:Hwait;
      apply read_wait_effect in Hwait as Hwt; destruct Hwt as (Hf & evs1 & T1 & Hevs1).
    2:{ rewrite (bind_raise _ _ _ _ _ Hwait) in *. simpl in T. rewrite T1 in T.
        apply app_inv_head in T as <-. rewrite Forall_forall in Hevs1.
        by destruct (Hevs1 _ Hin). }
    rewrite (bind_ok _ _ _ _ _ Hwait) in *.
    destruct (read_attempt E self n w1) as [r w'] eqn:Hra. simpl in *.
    apply read_attempt_effect in Hra as [(-> & _ & _)|(d & res & Hd & _ & _ & Hra)].
    { rewrite T1 in T. apply app_inv_head in T as <-. rewrite Forall_forall in Hevs1.
      by destruct (Hevs1 _ Hin). }
    rewrite Hr in Hd. injection Hd as <-.
    assert (Hres : res = Done [] → r = Raise TransportClosedError ∧ released self w' ∧
                     evs = evs1 ++ [EvRead rfd n (Done []);
                                    EvClose rfd (Done tt); EvClose wfd (Done tt)]).
    { intros ->. unmonad.
      rewrite (close_open self _ rfd wfd) in Hra by (simpl; congruence).
      injection Hra as <- <-. simpl in *. split; [done|]. split.
      - split; intros fd Hfd; simpl; [rewrite Hr in Hfd|rewrite Hw in Hfd];
          injection Hfd as <-.
        + by rewrite lookup_delete_ne, lookup_delete_eq.
        + by rewrite lookup_delete_eq.
      - rewrite T1, <- !app_assoc in T. by apply app_inv_head in T as <-. }
    destruct res as [[|b bs]|e].
    + destruct (Hres eq_refl) as (? & ? & ->). eauto.
    + destruct Hra as [-> ->]. simpl in T. rewrite T1, <- app_assoc in T.
      apply app_inv_head in T as <-. apply elem_of_app in Hin as [Hin|Hin].
      * rewrite Forall_forall in Hevs1. by destruct (Hevs1 _ Hin).
      * apply list_elem_of_singleton in Hin. by simplify_eq.
    + destruct Hra as [-> ->]. simpl in T. rewrite T1, <- app_assoc in T.
      apply app_inv_head in T as <-. apply elem_of_app in Hin as [Hin|Hin].
      * rewrite Forall_forall in Hevs1. by destruct (Hevs1 _ Hin).
      * apply list_elem_of_singleton in Hin. by simplify_eq.
  - intros data t evs fd buf T Hin.
    destruct (write_run_of E self data t w) as (end_time & w0 & r0 & Hf & Ht & Hrun & Hres).
    destruct (write_run_extends _ _ _ _ _ _ _ Hrun) as [evs' T'].
    assert (Hevs : evs = match t with
                         | None => []
                         | Some _ => [EvMonotonic (clock E (trace w))]
                         end ++ evs').
    { rewrite T', Ht, <- app_assoc in T. by apply app_inv_head in T. }
    assert (Hin' : EvWrite fd buf (Done 0%nat) ∈ evs').
    { rewrite Hevs in Hin. apply elem_of_app in Hin as [Hin|Hin]; [|done].
      destruct t; [|by apply elem_of_nil in Hin].
      by apply list_elem_of_singleton in Hin. }
    rewrite <- Hf in Hor, How.
    destruct (write_run_zero _ _ _ _ _ _ _ rfd wfd Hrun Hr Hw Hne Hor How _ _ _ T' Hin')
      as (-> & Hcr & Hcw & pre & ->).
    split; [done|]. split.
    + split; intros d Hd; [rewrite Hr in Hd|rewrite Hw in Hd]; by injection Hd as <-.
    + eexists. rewrite Hevs, app_assoc. done.
Qed.

(** C5: a call of [read] or [write] that ends with [IoTimeoutError] has
    touched no descriptor: the descriptor table is the one it started with
    (so a transport that was open still is), and all it did was to read
    the clock and call [select].  No call of [write] ends that way. *)
Theorem timeout_leaves_transport_untouched E self c w w' :
  outcome E self c w = (Some IoTimeoutError, w') →
  fdtab w' = fdtab w ∧
  (∀ rfd wfd, transport_open self rfd wfd w → transport_open self rfd wfd w') ∧
  ∃ evs, trace w' = trace w ++ evs ∧
         Forall (λ ev, is_clock ev = true ∨ is_select ev = true) evs.
Proof.
  intros Hout.
  assert (Hgoal : fdtab w' = fdtab w ∧
            ∃ evs, trace w' = trace w ++ evs ∧
                   Forall (λ ev, is_clock ev = true ∨ is_select ev = true) evs).
  { destruct c as [n t|data t]; simpl in Hout.
    - rewrite read_split in Hout.
      destruct (read_wait E self t w) as [[v|e] w1] eqn:Hwait;
        apply read_wait_effect in Hwait as Hwt.
      2:{ rewrite (bind_raise _ _ _ _ _ Hwait) in Hout. by simplify_eq/=. }
      rewrite (bind_ok _ _ _ _ _ Hwait) in Hout.
      destruct (read_attempt E self n w1) as [r w2] eqn:Hra. simplify_eq/=.
      apply read_attempt_effect in Hra as [(-> & _ & _)|(d & res & _ & _ & _ & Hra)];
        [done|].
      destruct res as [[|b bs]|e].
      + apply close_then_raise_effect in Hra as [[-> | ->] _]; by simplify_eq/=.
      + destruct Hra as [-> _]. by simplify_eq/=.
      + destruct Hra as [-> _]. by simplify_eq/=.
    - pose proof (write_never_waits E self data t w) as Hne.
      destruct (write E self data t w) as [[v|e] w2]; by simplify_eq/=. }
  destruct Hgoal as [Hf Hevs]. split; [done|]. split; [|done].
  intros rfd wfd. unfold transport_open. by rewrite Hf.
Qed.

(** ** Construction *)

(** A descriptor already in non-blocking mode is accepted as it is, after
    the one [F_GETFL]. *)
Lemma validate_configure_nonblocking E fd w fl :
  fdtab w !! fd_number fd = Some fl → Z.land fl O_NONBLOCK ≠ 0 →
  _validate_configure_fd E fd w =
    (Ok (fd_number fd), emit (EvGetFl (fd_number fd) (Done fl)) w).
Proof.
  intros Hfd Hfl. unfold _validate_configure_fd, fcntl_getfl. unmonad.
  rewrite Hfd. by destruct (Z.eqb_spec (Z.land fl O_NONBLOCK) 0).
Qed.


(** C3: descriptor 3 is open in blocking mode and the kernel's [F_SETFL]
    stores the requested flags and returns 0.  The configurator sets
    [O_NONBLOCK] on the descriptor and raises [FdConfigurationError]: after
    the [F_SETFL] there is no second [F_GETFL], the test is on the value
    [F_SETFL] returned.  An [F_GETFL] made afterwards does return flags
    with [O_NONBLOCK] set.  Construction on that descriptor fails with the
    configurator. *)
Theorem configure_rejects_descriptor_it_made_nonblocking :
  _validate_configure_fd stalled (RawFd 3) w34 =
    (Raise FdConfigurationError,
     mkWorld (<[3 := O_NONBLOCK]> (fdtab w34))
             [EvGetFl 3 (Done 0); EvSetFl 3 O_NONBLOCK (Done 0)]) ∧
  (fcntl_getfl 3 (_validate_configure_fd stalled (RawFd 3) w34).2).1 = Ok O_NONBLOCK ∧
  (__init__ stalled (RawFd 3) (RawFd 4) w34).1 = Raise FdConfigurationError.
Proof. split; [by vm_compute|]. split; by vm_compute. Qed.

(** ** Closing twice, and writing against a stalled peer *)

(** After a [close] that went through, a second [close] calls [os.close]
    on the read descriptor again. *)
Lemma close_again self rfd w w1 :
  read_fd self = Some rfd → close self w = (Ok tt, w1) →
  close self w1 = (Raise (OSError EBADF), emit (EvClose rfd (Errno EBADF)) w1).
Proof.
  intros Hr. unfold close, os_close. rewrite Hr. unmonad.
  destruct (fdtab w !! rfd) eqn:H1; [|done]. simpl.
  destruct (write_fd self) as [wfd|]; simpl.
  - destruct (decide (wfd = rfd)) as [->|Hne].
    + by rewrite lookup_delete_eq.
    + rewrite lookup_delete_ne by done. destruct (fdtab w !! wfd); [|done].
      intros [= <-]. simpl. by rewrite lookup_delete_ne, lookup_delete_eq.
  - intros [= <-]. simpl. by rewrite lookup_delete_eq.
Qed.

(** C2: the transport holds the open descriptors 3 and 4.  Two calls of
    [close] in a row call [os.close] on descriptor 3 twice: the second
    [close] does not see that 3 was released and fails with [EBADF].  The
    same happens when the first release was the one [read] makes on end of
    stream. *)
Theorem close_twice_closes_descriptor_again :
  (close t34 ;; close t34) w34 =
    (Raise (OSError EBADF),
     mkWorld ∅ [EvClose 3 (Done tt); EvClose 4 (Done tt); EvClose 3 (Errno EBADF)]) ∧
  (read hung_up t34 5 None w34).1 = Raise TransportClosedError ∧
  close t34 (read hung_up t34 5 None w34).2 =
    (Raise (OSError EBADF),
     mkWorld ∅ [EvRead 3 5 (Done []); EvClose 3 (Done tt); EvClose 4 (Done tt);
                EvClose 3 (Errno EBADF)]).
Proof. split; [by vm_compute|]. split; by vm_compute. Qed.

(** One [close] on a transport whose two attributes are the same
    descriptor calls [os.close] on it twice. *)
Example close_shared_descriptor :
  close (mkFdTransport (Some 3) (Some 3)) w34 =
    (Raise (OSError EBADF),
     mkWorld (delete 3 (fdtab w34)) [EvClose 3 (Done tt); EvClose 3 (Errno EBADF)]).
Proof. by vm_compute. Qed.

(** C1: the peer takes nothing, so the write descriptor never becomes
    ready.  [write] of one byte with a timeout of one tick reads the clock
    and goes straight to [os.write]: there is no [select] in its trace, and
    it ends at once with the [EAGAIN] of the non-blocking [write], not with
    [IoTimeoutError].  [read] under the same conditions does wait: it calls
    [select] with the time left to its deadline and raises
    [IoTimeoutError]. *)
Theorem write_skips_readiness_wait :
  write stalled t34 [x61] (Some 1) w34 =
    (Raise (OSError EAGAIN),
     mkWorld (fdtab w34) [EvMonotonic 100; EvWrite 4 [x61] (Errno EAGAIN)]) ∧
  read stalled t34 1 (Some 1) w34 =
    (Raise IoTimeoutError,
     mkWorld (fdtab w34)
             [EvMonotonic 100; EvMonotonic 100;
              EvSelect [3] [] [3] (Some 1) (Done ([], [], []))]).
Proof. split; by vm_compute. Qed.

(** ** Instances *)

Lemma t34_open : transport_open t34 3 4 w34.
Proof. repeat split; try done; by eexists. Defined.

Lemma flowing_read_bounded : read_bounded flowing.
Proof.
  intros h fd n b Hn [= <-]. rewrite length_take. unfold hello. simpl length. lia.
Defined.

(** The peer has shut down: [read] on the open transport over 3 and 4
    releases both and raises [TransportClosedError], and so does [write]. *)
Lemma end_of_stream_witness :
  transport_open t34 3 4 w34 ∧
  (read hung_up t34 5 (Some 1) w34).1 = Raise TransportClosedError ∧
  released t34 (read hung_up t34 5 (Some 1) w34).2 ∧
  (write hung_up t34 hello None w34).1 = Raise TransportClosedError.
Proof.
  split; [exact t34_open|].
  destruct (end_of_stream_releases_then_raises hung_up t34 3 4 w34 t34_open)
    as [Hread Hwrite].
  destruct (Hread 5 (Some 1)
              [EvMonotonic 100; EvMonotonic 100;
               EvSelect [3] [] [3] (Some 1) (Done ([3], [], []));
               EvRead 3 5 (Done []); EvClose 3 (Done tt); EvClose 4 (Done tt)])
    as (H1 & H2 & _); [by vm_compute|repeat constructor|].
  destruct (Hwrite hello None
              [EvWrite 4 hello (Done 0%nat); EvClose 3 (Done tt); EvClose 4 (Done tt)]
              4 hello)
    as (H3 & _); [by vm_compute|repeat constructor|].
  done.
Defined.

(** C4: one descriptor, 4, given for both directions, and a peer that has
    shut down.  Construction succeeds.  [read] gets zero bytes from
    [os.read] and calls [close], which closes descriptor 4 and then calls
    [os.close] on it once more; that call fails, and [read] ends with its
    [OSError] ([EBADF]): [TransportClosedError] is never raised.  [write]
    ends the same way after its zero-length [os.write]. *)
Theorem end_of_stream_on_shared_descriptor :
  __init__ hung_up (RawFd 4) (RawFd 4) w34 = (Ok t44, w44) ∧
  read hung_up t44 5 (Some 1) w44 =
    (Raise (OSError EBADF),
     mkWorld (delete 4 (fdtab w34))
             (trace w44 ++
              [EvMonotonic 100; EvMonotonic 100;
               EvSelect [4] [] [4] (Some 1) (Done ([4], [], []));
               EvRead 4 5 (Done []); EvClose 4 (Done tt); EvClose 4 (Errno EBADF)])) ∧
  write hung_up t44 hello None w44 =
    (Raise (OSError EBADF),
     mkWorld (delete 4 (fdtab w34))
             (trace w44 ++
              [EvWrite 4 hello (Done 0%nat); EvClose 4 (Done tt);
               EvClose 4 (Errno EBADF)])).
Proof. split; [by vm_compute|]. split; by vm_compute. Qed.

(** The peer is silent: [read] with a timeout of one tick raises
    [IoTimeoutError] and descriptors 3 and 4 are as they were. *)
Lemma timeout_witness :
  let w' := mkWorld (fdtab w34)
                    [EvMonotonic 100; EvMonotonic 100;
                     EvSelect [3] [] [3] (Some 1) (Done ([], [], []))] in
  outcome stalled t34 (CallRead 5 (Some 1)) w34 = (Some IoTimeoutError, w') ∧
  fdtab w' = fdtab w34 ∧
  transport_open t34 3 4 w'.
Proof.
  intros w'.
  assert (Hout : outcome stalled t34 (CallRead 5 (Some 1)) w34 = (Some IoTimeoutError, w'))
    by (by vm_compute).
  destruct (timeout_leaves_transport_untouched stalled t34 _ w34 w' Hout)
    as (Hf & Hopen & _).
  split; [exact Hout|]. split; [exact Hf|]. exact (Hopen 3 4 t34_open).
Defined.


(** ** End to end *)

(** [hello] written with a timeout goes out in three [write] calls of two,
    two and one byte, and 5 is returned. *)
Example write_hello :
  write flowing t34 hello (Some 1) w34 =
    (Ok 5%nat,
     mkWorld (fdtab w34)
             [EvMonotonic 100; EvWrite 4 hello (Done 2%nat);
              EvWrite 4 [x6c; x6c; x6f] (Done 2%nat); EvWrite 4 [x6f] (Done 1%nat)]).
Proof. by vm_compute. Qed.

(** [read] of up to 5 bytes returns the [hello] the peer sent. *)
Example read_hello : (read flowing t34 5 (Some 1) w34).1 = Ok hello.
Proof. by vm_compute. Qed.

(** * Further properties *)

(** ** Construction *)

(** X1: when both descriptors are open and already in non-blocking mode,
    construction succeeds with one [F_GETFL] per descriptor, read
    descriptor first: no flag is changed, and the transport holds the two
    descriptor numbers, whether they were given as numbers or as objects
    with a [fileno()]. *)
Theorem init_accepts_nonblocking E rfd wfd w flr flw :
  fdtab w !! fd_number rfd = Some flr → Z.land flr O_NONBLOCK ≠ 0 →
  fdtab w !! fd_number wfd = Some flw → Z.land flw O_NONBLOCK ≠ 0 →
  __init__ E rfd wfd w =
    (Ok (mkFdTransport (Some (fd_number rfd)) (Some (fd_number wfd))),
     mkWorld (fdtab w)
             (trace w ++ [EvGetFl (fd_number rfd) (Done flr);
                          EvGetFl (fd_number wfd) (Done flw)])).
Proof.
  intros Hr Hflr Hw Hflw. unfold __init__.
  rewrite (bind_ok _ _ _ _ _ (validate_configure_nonblocking E rfd w flr Hr Hflr)).
  rewrite (bind_ok _ _ _ _ _
             (validate_configure_nonblocking E wfd (emit _ w) flw Hw Hflw)).
  unmonad. unfold emit. simpl. by rewrite <- app_assoc.
Qed.

Lemma init_accepts_nonblocking_witness :
  __init__ stalled (RawFd 3) (FileObj 4) w34n =
    (Ok t34, mkWorld (fdtab w34n)
                     [EvGetFl 3 (Done O_NONBLOCK); EvGetFl 4 (Done (Z.lor 1 O_NONBLOCK))]).
Proof.
  apply (init_accepts_nonblocking stalled (RawFd 3) (FileObj 4) w34n
           O_NONBLOCK (Z.lor 1 O_NONBLOCK)); by vm_compute.
Defined.



Lemma fcntl_not_open_in_range ev fd w :
  0 ≤ fd ≤ INT_MAX → fcntl_not_open ev fd w = (Raise (OSError EBADF), emit ev w).
Proof.
  intros Hfd. unfold fcntl_not_open, INT_MIN, INT_MAX in *.
  destruct (Z.ltb_spec fd (-2147483648)); [lia|].
  destruct (Z.ltb_spec 2147483647 fd); [lia|].
  destruct (Z.ltb_spec fd 0); [lia|]. done.
Qed.

(** X3: construction stops at the first descriptor that cannot be
    configured.  For descriptor numbers in the range of a C [int]: on a
    read descriptor that is not open it raises [OSError] with [EBADF]
    after the one [F_GETFL] on it; on a write descriptor that is not open,
    after the read descriptor was accepted as non-blocking, it raises the
    same after the two [F_GETFL] calls.  A negative read descriptor is
    refused with [ValueError] before any system call.  In all three cases
    the descriptor table is left as it was. *)
Theorem init_on_closed_descriptor E rfd wfd w :
  (0 ≤ fd_number rfd ≤ INT_MAX → fdtab w !! fd_number rfd = None →
   __init__ E rfd wfd w =
     (Raise (OSError EBADF), emit (EvGetFl (fd_number rfd) (Errno EBADF)) w)) ∧
  (∀ flr, fdtab w !! fd_number rfd = Some flr → Z.land flr O_NONBLOCK ≠ 0 →
          0 ≤ fd_number wfd ≤ INT_MAX → fdtab w !! fd_number wfd = None →
   __init__ E rfd wfd w =
     (Raise (OSError EBADF),
      mkWorld (fdtab w)
              (trace w ++ [EvGetFl (fd_number rfd) (Done flr);
                           EvGetFl (fd_number wfd) (Errno EBADF)]))) ∧
  (INT_MIN ≤ fd_number rfd < 0 → fdtab w !! fd_number rfd = None →
   __init__ E rfd wfd w = (Raise ValueError, w)).
Proof.
  split; [|split].
  - intros Hrange Hr. unfold __init__, _validate_configure_fd, fcntl_getfl. unmonad.
    by rewrite Hr, fcntl_not_open_in_range.
  - intros flr Hr Hflr Hrange Hw. unfold __init__.
    rewrite (bind_ok _ _ _ _ _ (validate_configure_nonblocking E rfd w flr Hr Hflr)).
    unfold _validate_configure_fd, fcntl_getfl. unmonad. simpl. rewrite Hw.
    rewrite fcntl_not_open_in_range by done.
    unfold emit. simpl. by rewrite <- app_assoc.
  - intros Hrange Hr. unfold __init__, _validate_configure_fd, fcntl_getfl. unmonad.
    rewrite Hr. unfold fcntl_not_open, INT_MIN, INT_MAX in *.
    destruct (Z.ltb_spec (fd_number rfd) (-2147483648)); [lia|].
    destruct (Z.ltb_spec 2147483647 (fd_number rfd)); [lia|].
    destruct (Z.ltb_spec (fd_number rfd) 0); [|lia]. done.
Qed.

Lemma init_on_closed_descriptor_witness :
  __init__ stalled (RawFd 7) (RawFd 4) w34n =
    (Raise (OSError EBADF), emit (EvGetFl 7 (Errno EBADF)) w34n) ∧
  __init__ stalled (RawFd 3) (RawFd 7) w34n =
    (Raise (OSError EBADF),
     mkWorld (fdtab w34n) [EvGetFl 3 (Done O_NONBLOCK); EvGetFl 7 (Errno EBADF)]) ∧
  __init__ stalled (RawFd (-1)) (RawFd 4) w34n = (Raise ValueError, w34n).
Proof.
  destruct (init_on_closed_descriptor stalled (RawFd 7) (RawFd 4) w34n) as (H1 & _ & _).
  destruct (init_on_closed_descriptor stalled (RawFd 3) (RawFd 7) w34n) as (_ & H2 & _).
  destruct (init_on_closed_descriptor stalled (RawFd (-1)) (RawFd 4) w34n) as (_ & _ & H3).
  split; [apply H1; by vm_compute|].
  split; [apply (H2 O_NONBLOCK); by vm_compute|].
  apply H3; by vm_compute.
Defined.

(** ** [close] *)

(** X4: on a transport that holds two descriptors, [close] returns
    normally exactly when the two are different and both open; it has then
    released both, with the read descriptor closed first. *)
Theorem close_returns_iff_open self rfd wfd w :
  read_fd self = Some rfd → write_fd self = Some wfd →
  ((close self w).1 = Ok tt ↔ transport_open self rfd wfd w) ∧
  ((close self w).1 = Ok tt →
     released self (close self w).2 ∧
     trace (close self w).2 = trace w ++ [EvClose rfd (Done tt); EvClose wfd (Done tt)]).
Proof.
  intros Hr Hw.
  assert (Hopen : transport_open self rfd wfd w →
            close self w = (Ok tt, mkWorld (delete wfd (delete rfd (fdtab w)))
                                   (trace w ++ [EvClose rfd (Done tt); EvClose wfd (Done tt)]))).
  { intros (_ & _ & Hne & Hor & How). by apply close_open. }
  assert (Hback : (close self w).1 = Ok tt → transport_open self rfd wfd w).
  { unfold close, os_close. rewrite Hr, Hw. unmonad.
    destruct (fdtab w !! rfd) as [fr|] eqn:H1; simpl; [|done].
    destruct (decide (rfd = wfd)) as [<-|Hne]; [by rewrite lookup_delete_eq|].
    rewrite lookup_delete_ne by done.
    destruct (fdtab w !! wfd) as [fw|] eqn:H2; simpl; [|done].
    intros _. repeat split; try done; by eexists. }
  split; [split; [done|]; intros Ho; by rewrite (Hopen Ho)|].
  intros Hok. rewrite (Hopen (Hback Hok)). simpl. split; [|done].
  destruct (Hback Hok) as (_ & _ & Hne & _).
  split; intros fd Hfd; simpl; [rewrite Hr in Hfd|rewrite Hw in Hfd]; injection Hfd as <-.
  - by rewrite lookup_delete_ne, lookup_delete_eq.
  - by rewrite lookup_delete_eq.
Qed.

Lemma close_returns_iff_open_witness :
  (close t34 w34).1 = Ok tt ∧ released t34 (close t34 w34).2.
Proof.
  destruct (close_returns_iff_open t34 3 4 w34 eq_refl eq_refl) as [Hiff Hrel].
  assert (Hok : (close t34 w34).1 = Ok tt) by (apply Hiff; exact t34_open).
  split; [exact Hok|]. by destruct (Hrel Hok).
Defined.

(** X5: [close] touches no descriptor but its own two and opens none: any
    other descriptor is in the table afterwards exactly as before, and a
    descriptor that was not open is not open afterwards.  It fails with
    nothing but the [EBADF] of an [os.close], and issues no system call
    other than [os.close], at most one per attribute. *)
Theorem close_frame self w :
  ((close self w).1 = Ok tt ∨ (close self w).1 = Raise (OSError EBADF)) ∧
  (∀ fd, read_fd self ≠ Some fd → write_fd self ≠ Some fd →
         fdtab (close self w).2 !! fd = fdtab w !! fd) ∧
  (∀ fd, fdtab w !! fd = None → fdtab (close self w).2 !! fd = None) ∧
  ∃ evs, trace (close self w).2 = trace w ++ evs ∧
         Forall (λ ev, is_close ev = true) evs ∧ (length evs ≤ 2)%nat.
Proof.
  unfold close, os_close. unmonad.
  destruct (read_fd self) as [rfd|], (write_fd self) as [wfd|]; simpl;
    repeat case_match; simplify_eq/=;
    (split; [auto|]);
    (split; [intros fd Hfr Hfw; rewrite ?lookup_delete_ne by congruence; done|]);
    (split; [intros fd Hfd; rewrite ?lookup_delete_None; auto|]);
    first [ exists []; split; [by rewrite app_nil_r|]; split; [constructor|simpl; lia]
          | eexists; split; [by rewrite <- ?app_assoc|];
            split; [by repeat constructor|simpl; lia] ].
Qed.

(** X6: [close] gives up at the first [os.close] that fails.  When the
    read descriptor is not open, [close] raises [OSError] with [EBADF]
    after that one call: [os.close] is not called on the write descriptor,
    which stays as it was, open if it was open. *)
Theorem close_stops_at_read_fd self rfd w :
  read_fd self = Some rfd → fdtab w !! rfd = None →
  close self w = (Raise (OSError EBADF), emit (EvClose rfd (Errno EBADF)) w).
Proof.
  intros Hr Hc. unfold close, os_close. rewrite Hr. unmonad. by rewrite Hc.
Qed.

Lemma close_stops_at_read_fd_witness :
  close (mkFdTransport (Some 7) (Some 4)) w34 =
    (Raise (OSError EBADF), emit (EvClose 7 (Errno EBADF)) w34) ∧
  is_Some (fdtab (close (mkFdTransport (Some 7) (Some 4)) w34).2 !! 4).
Proof.
  assert (H : close (mkFdTransport (Some 7) (Some 4)) w34 =
              (Raise (OSError EBADF), emit (EvClose 7 (Errno EBADF)) w34))
    by (apply (close_stops_at_read_fd _ 7 w34); by vm_compute).
  split; [exact H|]. rewrite H. by eexists.
Defined.

(** X7: [close] is never idempotent.  After any [close] that returned,
    on any transport that holds a read descriptor, a second [close] raises
    [OSError] with [EBADF] from a new [os.close] on the read descriptor,
    and changes no descriptor. *)
Theorem close_after_close_raises self rfd w :
  read_fd self = Some rfd → (close self w).1 = Ok tt →
  close self (close self w).2 =
    (Raise (OSError EBADF), emit (EvClose rfd (Errno EBADF)) (close self w).2).
Proof.
  intros Hr Hok. destruct (close self w) as [r w1] eqn:Hc. simpl in *. subst r.
  by apply (close_again self rfd w w1).
Qed.

Lemma close_after_close_raises_witness :
  (close t34 (close t34 w34).2).1 = Raise (OSError EBADF).
Proof.
  rewrite (close_after_close_raises t34 3 w34); [reflexivity|reflexivity|by vm_compute].
Defined.

(** ** The readiness wait *)

Lemma fd_set_from_Some i l :
  Forall (λ fd, 0 ≤ fd < FD_SETSIZE) l →
  Z.of_nat i + Z.of_nat (length l) ≤ FD_SETSIZE →
  fd_set_from i (Some <$> l) = Ok l.
Proof.
  intros Hl. revert i. induction Hl as [|d l Hd _ IH]; intros i Hi; [done|].
  rewrite fmap_cons. cbn [fd_set_from]. simpl length in Hi.
  unfold FD_SETSIZE, INT_MIN, INT_MAX in *.
  destruct (Z.ltb_spec d (-2147483648)); [lia|].
  destruct (Z.ltb_spec 2147483647 d); [lia|].
  destruct (Z.ltb_spec d 0); [lia|].
  destruct (Z.leb_spec 1024 d); [lia|].
  destruct (Z.leb_spec 1024 (Z.of_nat i)); [lia|]. simpl.
  rewrite IH; [done|lia].
Qed.

Lemma forallb_is_open w l :
  Forall (λ fd, is_Some (fdtab w !! fd)) l → forallb (is_open w) l = true.
Proof.
  induction 1 as [|fd l Hfd _ IH]; [done|]. simpl. rewrite IH.
  unfold is_open. by rewrite bool_decide_eq_true_2.
Qed.

(** X8: given a deadline, no explicit timeout, and lists of open
    descriptors that [select] can take (numbers below [FD_SETSIZE], at
    most [FD_SETSIZE] of them in all, the deadline no further away than
    [TIMEOUT_MAX]), the readiness wait reads the clock
    once and calls [select] once, watching the read list for reading, the
    write list for writing and both for exceptional conditions, with
    [max(0, end_time - now)] as timeout.  It raises [IoTimeoutError] when
    [select] reports nothing, returns [True] when [select] reports an
    exceptional condition, [None] when it reports readiness only, and
    passes on an error of [select]. *)
Theorem await_ready_under_deadline E self rl wl dl w :
  Forall (λ fd, 0 ≤ fd < FD_SETSIZE) (rl ++ wl) →
  Z.of_nat (length (rl ++ wl)) ≤ FD_SETSIZE →
  Forall (λ fd, is_Some (fdtab w !! fd)) (rl ++ wl) →
  dl - clock E (trace w) ≤ TIMEOUT_MAX →
  let now := clock E (trace w) in
  let timeout := Z.max 0 (dl - now) in
  let res := select_out E (trace w ++ [EvMonotonic now]) rl wl (rl ++ wl) (Some timeout) in
  _await_ready E self (VFds (Some <$> rl)) (VFds (Some <$> wl)) VNone (VNum dl) w =
    (match res with
     | Errno e => Raise (OSError e)
     | Done ([], [], []) => Raise IoTimeoutError
     | Done (_, _, _ :: _) => Ok (Some true)
     | Done _ => Ok None
     end,
     mkWorld (fdtab w)
             (trace w ++ [EvMonotonic now; EvSelect rl wl (rl ++ wl) (Some timeout) res])).
Proof.
  intros Hrange Hlen Hopen _ now timeout res.
  pose proof Hrange as [Hrl Hwl]%Forall_app. rewrite length_app in Hlen.
  unfold _await_ready, time_monotonic, py_sub, py_add, select_select, select_timeout,
    fd_set_of. unmonad. simpl. fold now. fold timeout.
  destruct (Z.ltb_spec timeout 0) as [Hneg|_]; [unfold timeout in Hneg; lia|].
  rewrite <- fmap_app, !fd_set_from_Some; try done; try (rewrite ?length_app; simpl; lia).
  assert (Hall : forallb (is_open (emit (EvMonotonic now) w)) (rl ++ wl ++ rl ++ wl) = true).
  { apply (forallb_is_open (emit (EvMonotonic now) w)). simpl.
    rewrite app_assoc. by apply Forall_app. }
  rewrite Hall. simpl. fold res. unfold emit. simpl. rewrite <- app_assoc. simpl.
  by destruct res as [[[[|??] [|??]] [|??]]|e].
Qed.

Lemma await_ready_under_deadline_witness :
  _await_ready stalled t34 (VFds [Some 3]) (VFds []) VNone (VNum 90) w34 =
    (Raise IoTimeoutError,
     mkWorld (fdtab w34)
             [EvMonotonic 100; EvSelect [3] [] [3] (Some 0) (Done ([], [], []))]).
Proof.
  apply (await_ready_under_deadline stalled t34 [3] [] 90 w34).
  - repeat constructor; by vm_compute.
  - by vm_compute.
  - repeat constructor. by eexists.
  - by vm_compute.
Defined.

(** X9: whatever its arguments, well typed or not, the readiness wait
    leaves the descriptor table as it was, and its system calls are at most
    one clock reading and at most one [select], and nothing else. *)
Theorem await_ready_frame E self rlist wlist timeout_sec end_time w :
  fdtab (_await_ready E self rlist wlist timeout_sec end_time w).2 = fdtab w ∧
  ∃ evs, trace (_await_ready E self rlist wlist timeout_sec end_time w).2 = trace w ++ evs ∧
         Forall (λ ev, is_clock ev = true ∨ is_select ev = true) evs ∧
         (clocks evs ≤ 1)%nat ∧ (selects evs ≤ 1)%nat.
Proof.
  unfold _await_ready, select_select, py_add, py_sub, time_monotonic. unmonad.
  repeat (case_match; simplify_eq/=); (split; [done|]);
    first [ exists []; split; [by rewrite app_nil_r|];
            split; [constructor|]; split; vm_compute; lia
          | eexists; split; [by rewrite <- ?app_assoc|];
            split; [by repeat constructor|]; split; vm_compute; lia ].
Qed.

(** ** [read], further *)


Lemma selects_none evs : Forall (λ ev, is_select ev = false) evs → selects evs = 0%nat.
Proof.
  induction 1 as [|ev evs Hev _ IH]; [done|].
  unfold selects in *. rewrite filter_cons. case_decide; [congruence|done].
Qed.

(** The wait of [read] under a timeout, on a transport that holds a read
    descriptor [select] can take: two clock readings, then one [select] on
    that descriptor. *)
Lemma read_wait_some E self rfd t w :
  read_fd self = Some rfd → 0 ≤ rfd < FD_SETSIZE →
  let now1 := clock E (trace w) in
  let now2 := clock E (trace w ++ [EvMonotonic now1]) in
  let timeout := Z.max 0 (now1 + t - now2) in
  let res := if is_open w rfd
             then select_out E (trace w ++ [EvMonotonic now1; EvMonotonic now2])
                             [rfd] [] [rfd] (Some timeout)
             else Errno EBADF in
  read_wait E self (Some t) w =
    (match res with
     | Errno e => Raise (OSError e)
     | Done ([], [], []) => Raise IoTimeoutError
     | Done (_, _, _ :: _) => Ok (Some true)
     | Done _ => Ok None
     end,
     mkWorld (fdtab w)
             (trace w ++ [EvMonotonic now1; EvMonotonic now2;
                          EvSelect [rfd] [] [rfd] (Some timeout) res])).
Proof.
  intros Hr Hrange now1 now2 timeout res.
  unfold read_wait, deadline, _await_ready, time_monotonic, py_sub, py_add,
    select_select, select_timeout, fd_set_of. unmonad. simpl. rewrite Hr. simpl.
  unfold emit. simpl. fold now1. fold now2. fold timeout.
  destruct (Z.ltb_spec timeout 0) as [Hneg|_]; [unfold timeout in Hneg; lia|].
  unfold FD_SETSIZE, INT_MIN, INT_MAX in *.
  destruct (Z.ltb_spec rfd (-2147483648)); [lia|].
  destruct (Z.ltb_spec 2147483647 rfd); [lia|].
  destruct (Z.ltb_spec rfd 0); [lia|].
  destruct (Z.leb_spec 1024 rfd); [lia|]. simpl.
  unfold is_open in *. simpl. subst res.
  rewrite <- !app_assoc. simpl.
  case_bool_decide as Hopen; simpl; [|done].
  by destruct (select_out E _ _ _ _ _) as [[[[|??] [|??]] [|??]]|e].
Qed.

(** With a read descriptor [select] cannot take, the wait ends after the
    two clock readings with the library's error, and no [select]. *)
Lemma read_wait_out_of_range E self rfd t w :
  read_fd self = Some rfd → ¬ (0 ≤ rfd < FD_SETSIZE) →
  let now1 := clock E (trace w) in
  let now2 := clock E (trace w ++ [EvMonotonic now1]) in
  ∃ e, read_wait E self (Some t) w =
         (Raise e, mkWorld (fdtab w) (trace w ++ [EvMonotonic now1; EvMonotonic now2])) ∧
       (e = ValueError ∨ e = OverflowError).
Proof.
  intros Hr Hrange now1 now2.
  unfold read_wait, deadline, _await_ready, time_monotonic, py_sub, py_add,
    select_select, select_timeout, fd_set_of. unmonad. simpl. rewrite Hr. simpl.
  unfold emit. simpl. fold now1. fold now2.
  destruct (Z.ltb_spec (Z.max 0 (now1 + t - now2)) 0) as [Hneg|_]; [lia|].
  rewrite <- !app_assoc. simpl.
  unfold FD_SETSIZE in *.
  destruct ((rfd <? INT_MIN) || (INT_MAX <? rfd)) eqn:Hov; simpl; [eauto|].
  destruct (Z.ltb_spec rfd 0); simpl; [eauto|].
  destruct (Z.leb_spec 1024 rfd); simpl; [eauto|]. lia.
Qed.

(** From the [os.read] call on, [read] issues [read] and [close] calls
    only, never reports a timeout, and closes descriptors only after a
    zero-length [read]. *)
Lemma read_attempt_trace E self n w r w' :
  read_attempt E self n w = (r, w') →
  r ≠ Raise IoTimeoutError ∧
  ∃ evs, trace w' = trace w ++ evs ∧
    Forall (λ ev, is_read ev = true ∨ is_close ev = true) evs ∧
    ((∃ fd, EvRead fd n (Done []) ∈ evs) ∨
     fdtab w' = fdtab w ∧ Forall (λ ev, is_close ev = false) evs).
Proof.
  intros H.
  assert (Hpre : (w' = w ∧ (r = Raise TypeError ∨ r = Raise (OSError EINVAL))) ∨
                 ∃ d res, match res with
                   | Errno e => r = Raise (OSError e) ∧ w' = emit (EvRead d n res) w
                   | Done [] => (close self ;; raise TransportClosedError)
                                  (emit (EvRead d n res) w) = (r, w')
                   | Done b => r = Ok b ∧ w' = emit (EvRead d n res) w
                   end).
  { unfold read_attempt in H.
    destruct (os_read E (read_fd self) n w) as [r0 w1] eqn:Hr.
    apply os_read_effect in Hr as Hr'.
    destruct Hr' as [[-> Hc]|(d & res & Hd & Hn & -> & -> & Hres)].
    - left. destruct Hc as [[? ->]|[? ->]]; rewrite (bind_raise _ _ _ _ _ Hr) in H;
        simplify_eq; auto.
    - right. exists d, res. destruct res as [[|b bs]|e]; simpl in *.
      + by rewrite (bind_ok _ _ _ _ _ Hr) in H.
      + rewrite (bind_ok _ _ _ _ _ Hr) in H. simpl in H. unmonad. by simplify_eq.
      + rewrite (bind_raise _ _ _ _ _ Hr) in H. by simplify_eq. }
  clear H. destruct Hpre as [(-> & Hr)|(d & res & H)].
  - split; [by destruct Hr as [-> | ->]|].
    exists []. rewrite app_nil_r. split; [done|]. split; [constructor|].
    right. split; [done|constructor].
  - destruct res as [[|b bs]|e].
    + apply close_then_raise_effect in H as [Hr (cevs & T & Hc)].
      split; [by destruct Hr as [-> | ->]|].
      exists (EvRead d n (Done []) :: cevs). split; [by rewrite T; simpl; rewrite <- app_assoc|].
      split.
      * constructor; [by left|]. eapply Forall_impl; [exact Hc|]. by right.
      * left. exists d. by left.
    + destruct H as [-> ->]. split; [done|]. exists [EvRead d n (Done (b :: bs))].
      split; [done|]. split; [by repeat constructor|]. right. by repeat constructor.
    + destruct H as [-> ->]. split; [done|]. exists [EvRead d n (Errno e)].
      split; [done|]. split; [by repeat constructor|]. right. by repeat constructor.
Qed.

Lemma read_wait_none E self w : read_wait E self None w = (Ok None, w).
Proof. reflexivity. Qed.

Lemma read_none_trace E self n w :
  (read E self n None w).1 ≠ Raise IoTimeoutError ∧
  ∃ evs, trace (read E self n None w).2 = trace w ++ evs ∧
         Forall (λ ev, is_read ev = true ∨ is_close ev = true) evs.
Proof.
  rewrite read_split, (bind_ok _ _ _ _ _ (read_wait_none E self w)).
  destruct (read_attempt E self n w) as [r w'] eqn:Hr.
  apply read_attempt_trace in Hr as (Hne & evs & T & Hevs & _). eauto.
Qed.

(** X10: [read] without a timeout does not wait at all: it reads no clock,
    calls no [select], and never raises [IoTimeoutError]; its system calls
    are the [os.read] and, on end of stream, the [os.close] calls. *)
Theorem read_without_timeout_never_waits E self n w :
  (read E self n None w).1 ≠ Raise IoTimeoutError ∧
  ∃ evs, trace (read E self n None w).2 = trace w ++ evs ∧
         Forall (λ ev, is_read ev = true ∨ is_close ev = true) evs.
Proof. apply read_none_trace. Qed.

(** A [read] under a timeout, on a transport that holds a read descriptor,
    seen on its trace: two clock readings, at most one [select], then what
    the part from [os.read] on adds. *)
Lemma read_some_trace E self rfd n t w :
  read_fd self = Some rfd →
  ∃ c1 c2 sel evs2,
    trace (read E self n (Some t) w).2 =
      trace w ++ [EvMonotonic c1; EvMonotonic c2] ++ sel ++ evs2 ∧
    Forall (λ ev, is_read ev = true ∨ is_close ev = true) evs2 ∧
    ((sel = [] ∧ evs2 = [] ∧
      ((read E self n (Some t) w).1 = Raise ValueError ∨
       (read E self n (Some t) w).1 = Raise OverflowError)) ∨
     ∃ x res, 0 ≤ x ∧ sel = [EvSelect [rfd] [] [rfd] (Some x) res] ∧
       (res = Done ([], [], []) ∧ (read E self n (Some t) w).1 = Raise IoTimeoutError ∨
        res ≠ Done ([], [], []) ∧ (read E self n (Some t) w).1 ≠ Raise IoTimeoutError)).
Proof.
  intros Hr. rewrite read_split.
  set (now1 := clock E (trace w)).
  set (now2 := clock E (trace w ++ [EvMonotonic now1])).
  exists now1, now2.
  destruct (decide (0 ≤ rfd < FD_SETSIZE)) as [Hrange|Hrange].
  2:{ destruct (read_wait_out_of_range E self rfd t w Hr Hrange) as (e & Hwait & He).
      fold now1 now2 in Hwait. rewrite (bind_raise _ _ _ _ _ Hwait). simpl.
      exists [], []. split; [done|]. split; [constructor|]. left.
      repeat split. destruct He as [-> | ->]; auto. }
  pose proof (read_wait_some E self rfd t w Hr Hrange) as Hwait. simpl in Hwait.
  fold now1 now2 in Hwait.
  set (x := Z.max 0 (now1 + t - now2)) in *.
  set (res0 := if is_open w rfd then _ else _) in *.
  assert (Hx : 0 ≤ x) by (subst x; lia).
  destruct (read_wait E self (Some t) w) as [[v|e] w1] eqn:Hw1;
    injection Hwait as Hrw ->.
  - rewrite (bind_ok _ _ _ _ _ Hw1).
    destruct (read_attempt E self n _) as [r w'] eqn:Hra.
    apply read_attempt_trace in Hra as (Hne & evs2 & T & Hevs2 & _). simpl in T.
    exists [EvSelect [rfd] [] [rfd] (Some x) res0], evs2.
    split; [simpl; by rewrite T, <- app_assoc|]. split; [done|]. right.
    exists x, res0. split; [done|]. split; [done|]. right. split; [|done].
    intros Hres. rewrite Hres in Hrw. done.
  - rewrite (bind_raise _ _ _ _ _ Hw1). simpl.
    exists [EvSelect [rfd] [] [rfd] (Some x) res0], [].
    split; [done|]. split; [constructor|]. right.
    exists x, res0. split; [done|]. split; [done|].
    destruct res0 as [[[[|??] [|??]] [|??]]|e']; simplify_eq; auto.
Qed.



(** X12: on a transport that holds a read descriptor, [read] raises
    [IoTimeoutError] exactly when its [select] reported no descriptor at
    all, neither readable nor writable nor exceptional. *)
Theorem read_times_out_iff_select_empty E self rfd n t w :
  read_fd self = Some rfd →
  ∃ evs, trace (read E self n t w).2 = trace w ++ evs ∧
    ((read E self n t w).1 = Raise IoTimeoutError ↔
     ∃ rl wl xl timeout, EvSelect rl wl xl timeout (Done ([], [], [])) ∈ evs).
Proof.
  intros Hr. destruct t as [t|].
  2:{ destruct (read_none_trace E self n w) as (Hne & evs & T & Hevs).
      exists evs. split; [done|]. split; [done|].
      intros (rl & wl & xl & timeout & Hin). rewrite Forall_forall in Hevs.
      by destruct (Hevs _ Hin). }
  destruct (read_some_trace E self rfd n t w Hr) as (c1 & c2 & sel & evs2 & T & Hevs2 & Hsel).
  exists ([EvMonotonic c1; EvMonotonic c2] ++ sel ++ evs2). split; [done|].
  assert (Hno2 : ∀ rl wl xl timeout res, EvSelect rl wl xl timeout res ∈ evs2 → False).
  { intros rl wl xl timeout res Hin. rewrite Forall_forall in Hevs2.
    by destruct (Hevs2 _ Hin). }
  destruct Hsel as [(-> & -> & Hres)|(x & res & Hx & -> & Hres)].
  - split.
    + intros Hto. rewrite Hto in Hres. by destruct Hres.
    + intros (rl & wl & xl & timeout & Hin).
      repeat (apply elem_of_cons in Hin as [Hin|Hin]; [by simplify_eq|]).
      by apply elem_of_nil in Hin.
  - destruct Hres as [[-> Hto]|[Hne Hto]].
    + split; [|done]. intros _. exists [rfd], [], [rfd], (Some x).
      apply list_elem_of_further, list_elem_of_further, list_elem_of_here.
    + split; [done|]. intros (rl & wl & xl & timeout & Hin).
      apply elem_of_app in Hin as [Hin|Hin].
      { repeat (apply elem_of_cons in Hin as [Hin|Hin]; [by simplify_eq|]).
        by apply elem_of_nil in Hin. }
      apply elem_of_app in Hin as [Hin|Hin]; [|by apply Hno2 in Hin].
      apply list_elem_of_singleton in Hin. by simplify_eq.
Qed.

Lemma read_times_out_iff_select_empty_witness :
  (read stalled t34 5 (Some 1) w34).1 = Raise IoTimeoutError.
Proof.
  destruct (read_times_out_iff_select_empty stalled t34 3 5 (Some 1) w34 eq_refl)
    as (evs & T & Hiff).
  apply Hiff. exists [3], [], [3], (Some 1).
  assert (Hevs : evs = [EvMonotonic 100; EvMonotonic 100;
                        EvSelect [3] [] [3] (Some 1) (Done ([], [], []))]).
  { apply (app_inv_head (trace w34)). rewrite <- T. by vm_compute. }
  rewrite Hevs. repeat constructor.
Defined.

(** X13: [read] changes the descriptor table only at end of stream: unless
    its [os.read] returned zero bytes, the table is afterwards as it was
    and no [os.close] was issued.  So a [read] that returns data, times
    out, or fails in [select] or [os.read] leaves both descriptors as they
    were. *)
Theorem read_closes_only_at_end_of_stream E self n t w :
  ∃ evs, trace (read E self n t w).2 = trace w ++ evs ∧
    ((∃ fd, EvRead fd n (Done []) ∈ evs) ∨
     fdtab (read E self n t w).2 = fdtab w ∧ Forall (λ ev, is_close ev = false) evs).
Proof.
  rewrite read_split.
  destruct (read_wait E self t w) as [[v|e] w1] eqn:Hwait;
    apply read_wait_effect in Hwait as Hw; destruct Hw as (Hf & evs1 & T1 & Hevs1).
  - rewrite (bind_ok _ _ _ _ _ Hwait).
    destruct (read_attempt E self n w1) as [r w'] eqn:Hra.
    apply read_attempt_trace in Hra as (_ & evs2 & T2 & _ & Hcase). simpl.
    exists (evs1 ++ evs2). split; [by rewrite T2, T1, <- app_assoc|].
    destruct Hcase as [[fd Hin]|[Hf2 Hnc]].
    + left. exists fd. apply elem_of_app. by right.
    + right. split; [congruence|]. apply Forall_app. split; [|done].
      eapply Forall_impl; [exact Hevs1|]. by intros [] [?|?].
  - rewrite (bind_raise _ _ _ _ _ Hwait). simpl. exists evs1. split; [done|].
    right. split; [done|]. eapply Forall_impl; [exact Hevs1|]. by intros [] [?|?].
Qed.

(** X14: with a kernel that returns at most the count asked for, [read]
    of zero bytes never returns: the empty result of [os.read] is taken for
    end of stream, so the call raises, whatever the state of the peer. *)
Theorem read_zero_never_returns E self t w :
  read_bounded E → ∀ b, (read E self 0 t w).1 ≠ Ok b.
Proof.
  intros Hbound b. rewrite read_split.
  destruct (read_wait E self t w) as [[v|e] w1] eqn:Hwait.
  2:{ by rewrite (bind_raise _ _ _ _ _ Hwait). }
  rewrite (bind_ok _ _ _ _ _ Hwait).
  destruct (read_attempt E self 0 w1) as [r w'] eqn:Hra. simpl.
  apply read_attempt_effect in Hra as [(_ & _ & e & ->)|(d & res & _ & _ & Hres & Hra)];
    [done|].
  destruct res as [[|b0 bs]|e].
  - apply close_then_raise_effect in Hra as [[-> | ->] _]; done.
  - destruct Hres as [Hres|[? _]]; [|done]. symmetry in Hres.
    apply Hbound in Hres; [|lia]. simpl in Hres. lia.
  - by destruct Hra as [-> _].
Qed.

Lemma read_zero_never_returns_witness :
  read_bounded flowing ∧ (read flowing t34 0 (Some 1) w34).1 ≠ Ok [].
Proof.
  split; [exact flowing_read_bounded|].
  exact (read_zero_never_returns flowing t34 (Some 1) w34 flowing_read_bounded []).
Defined.

(** ** [write], further *)

Lemma writes_app evs evs' : writes (evs ++ evs') = (writes evs + writes evs')%nat.
Proof. unfold writes. by rewrite filter_app, length_app. Qed.

Lemma writes_none evs : Forall (λ ev, is_write ev = false) evs → writes evs = 0%nat.
Proof.
  induction 1 as [|ev evs Hev _ IH]; [done|].
  unfold writes in *. rewrite filter_cons. case_decide; [congruence|done].
Qed.

Lemma writes_cons_write fd buf res evs :
  writes (EvWrite fd buf res :: evs) = S (writes evs).
Proof. unfold writes. rewrite filter_cons. by case_decide. Qed.

Lemma writes_closes evs : Forall (λ ev, is_close ev = true) evs → writes evs = 0%nat.
Proof.
  intros H. apply writes_none. eapply Forall_impl; [exact H|]. by intros [].
Qed.

(** What a run of the loop of [write] does, seen on its trace. *)
Lemma write_run_calls E self end_time data w r w' :
  write_run E self end_time data w r w' →
  ∀ evs, trace w' = trace w ++ evs →
    (writes evs ≤ length data)%nat ∧
    (∀ fd buf res, EvWrite fd buf res ∈ evs → write_fd self = Some fd ∧ buf ≠ []) ∧
    (∃ rest, sent evs ++ rest = data) ∧
    ((∃ fd buf, EvWrite fd buf (Done 0%nat) ∈ evs) ∨
     fdtab w' = fdtab w ∧ Forall (λ ev, is_close ev = false) evs).
Proof.
  induction 1 as [w|data w e w1 Hne Hw|data w w1 r w2 Hne Hw Hc
                 |data w k w1 r w2 Hne Hw Hrun IH]; intros evs T.
  - rewrite <- (app_nil_r (trace w)) in T at 1. apply app_inv_head in T as <-.
    split; [vm_compute; lia|]. split; [by intros ??? ?%elem_of_nil|].
    split; [by exists []|]. right. split; [done|constructor].
  - assert (Hlen : (1 ≤ length data)%nat) by (destruct data; [done|simpl; lia]).
    apply write_attempt_effect in Hw
      as [Hf [[-> _]|(d & res & [(Hd & T' & Hr)|(Hd & T' & _)])]].
    + rewrite <- (app_nil_r (trace w)) in T at 1. apply app_inv_head in T as <-.
      split; [vm_compute; lia|]. split; [by intros ??? ?%elem_of_nil|].
      split; [by exists data|]. right. split; [done|constructor].
    + rewrite T' in T. apply app_inv_head in T as <-. symmetry in Hr.
      apply of_sys_raise in Hr as (errno & -> & _).
      split; [by rewrite writes_cons_write|].
      split; [by intros ??? ?%list_elem_of_singleton; simplify_eq|].
      split; [by exists data|]. right. split; [done|by repeat constructor].
    + rewrite T' in T. apply app_inv_head in T as <-.
      split; [by rewrite writes_cons_write|].
      split; [by intros ??? ?%list_elem_of_singleton; simplify_eq|].
      split; [by exists data|]. right. split; [done|by repeat constructor].
  - assert (Hlen : (1 ≤ length data)%nat) by (destruct data; [done|simpl; lia]).
    apply write_attempt_ok in Hw as (d & Hd & ->).
    apply close_then_raise_effect in Hc as [_ (cevs & T' & Hc)].
    rewrite T' in T. simpl in T. rewrite <- app_assoc in T. apply app_inv_head in T as <-.
    simpl. split; [by rewrite writes_cons_write, (writes_closes _ Hc)|]. split.
    + intros fd buf res [?|Hin]%elem_of_cons; [by simplify_eq|].
      rewrite Forall_forall in Hc. by pose proof (Hc _ Hin).
    + split; [exists data; by rewrite sent_cons, (sent_closes _ Hc)|].
      left. exists d, data. by left.
  - assert (Hlen : (1 ≤ length data)%nat) by (destruct data; [done|simpl; lia]).
    apply write_attempt_ok in Hw as (d & Hd & ->).
    destruct (write_run_extends _ _ _ _ _ _ _ Hrun) as [evs' T']. rewrite T' in T.
    simpl in T. rewrite <- app_assoc in T. apply app_inv_head in T as <-.
    destruct (IH _ T') as (IH1 & IH2 & [rest IH3] & IH4). simpl.
    split; [rewrite writes_cons_write; rewrite length_drop in IH1; lia|]. split.
    + intros fd buf res [?|Hin]%elem_of_cons; [by simplify_eq|]. by apply IH2 in Hin.
    + split.
      * exists rest. rewrite sent_cons, <- app_assoc, IH3. apply take_drop.
      * destruct IH4 as [(fd & buf & Hin)|[Hf Hnc]].
        -- left. exists fd, buf. by right.
        -- right. split; [done|]. by constructor.
Qed.

(** [write] seen on its trace. *)
Lemma write_calls E self data t w :
  ∃ evs, trace (write E self data t w).2 = trace w ++ evs ∧
    (writes evs ≤ length data)%nat ∧
    (∀ fd buf res, EvWrite fd buf res ∈ evs → write_fd self = Some fd ∧ buf ≠ []) ∧
    (∃ rest, sent evs ++ rest = data) ∧
    ((∃ fd buf, EvWrite fd buf (Done 0%nat) ∈ evs) ∨
     fdtab (write E self data t w).2 = fdtab w ∧ Forall (λ ev, is_close ev = false) evs).
Proof.
  destruct (write_run_of E self data t w) as (end_time & w0 & r0 & Hf & Ht & Hrun & Hr).
  destruct (write_run_extends _ _ _ _ _ _ _ Hrun) as [evs T].
  destruct (write_run_calls _ _ _ _ _ _ _ Hrun _ T) as (H1 & H2 & H3 & H4).
  set (cl := match t with None => [] | Some _ => [EvMonotonic (clock E (trace w))] end) in *.
  assert (Hcl : Forall (λ ev, is_clock ev = true) cl) by (subst cl; destruct t; by repeat constructor).
  exists (cl ++ evs). split; [by rewrite T, Ht, <- app_assoc|].
  split; [rewrite writes_app, (writes_none cl); [done|];
          eapply Forall_impl; [exact Hcl|]; by intros []|].
  split.
  { intros fd buf res [Hin|Hin]%elem_of_app; [|by apply H2 in Hin].
    rewrite Forall_forall in Hcl. by pose proof (Hcl _ Hin). }
  split; [subst cl; by rewrite sent_deadline|].
  destruct H4 as [(fd & buf & Hin)|[Hf' Hnc]].
  - left. exists fd, buf. apply elem_of_app. by right.
  - right. split; [congruence|]. apply Forall_app. split; [|done].
    eapply Forall_impl; [exact Hcl|]. by intros [].
Qed.

(** X15: whatever the payload and the timeout, [write] never calls
    [select] and never raises [IoTimeoutError]: the timeout has no effect
    on a call of [write] beyond one clock reading. *)
Theorem write_never_times_out E self data t w :
  (write E self data t w).1 ≠ Raise IoTimeoutError ∧
  ∃ evs, trace (write E self data t w).2 = trace w ++ evs ∧ selects evs = 0%nat.
Proof.
  split; [apply write_never_waits|].
  destruct (write_trace E self data t w) as (evs & T & Hevs).
  exists evs. split; [done|]. by apply selects_none.
Qed.

(** X16: [write] issues at most [len(data)] calls of [os.write]; each is
    on the write descriptor of the transport, and none is handed an empty
    buffer. *)
Theorem write_issues_bounded_writes E self data t w :
  ∃ evs, trace (write E self data t w).2 = trace w ++ evs ∧
    (writes evs ≤ length data)%nat ∧
    ∀ fd buf res, EvWrite fd buf res ∈ evs → write_fd self = Some fd ∧ buf ≠ [].
Proof.
  destruct (write_calls E self data t w) as (evs & T & H1 & H2 & _). eauto.
Qed.

(** X17: however a call of [write] ends, the bytes the kernel took during
    it, in order, are a prefix of the payload: a [write] that raises after
    some passes has sent the beginning of the payload and nothing else. *)
Theorem write_sent_is_prefix E self data t w :
  ∃ evs, trace (write E self data t w).2 = trace w ++ evs ∧
         sent evs `prefix_of` data.
Proof.
  destruct (write_calls E self data t w) as (evs & T & _ & _ & [rest H3] & _).
  exists evs. split; [done|]. by exists rest.
Qed.

(** X18: [write] changes the descriptor table only when an [os.write]
    returned zero: otherwise the table is afterwards as it was and no
    [os.close] was issued.  So a [write] that returns, or that fails in
    [os.write], leaves both descriptors as they were. *)
Theorem write_closes_only_on_zero_write E self data t w :
  ∃ evs, trace (write E self data t w).2 = trace w ++ evs ∧
    ((∃ fd buf, EvWrite fd buf (Done 0%nat) ∈ evs) ∨
     fdtab (write E self data t w).2 = fdtab w ∧ Forall (λ ev, is_close ev = false) evs).
Proof.
  destruct (write_calls E self data t w) as (evs & T & _ & _ & _ & H4). eauto.
Qed.

(** ** After [close] *)

Lemma close_ok_released self w w1 :
  close self w = (Ok tt, w1) → released self w1.
Proof.
  unfold close, os_close, released. unmonad.
  destruct (read_fd self) as [rfd|], (write_fd self) as [wfd|]; simpl;
    repeat case_match; intros; simplify_eq/=; split; intros fd ?; simplify_eq;
    try (destruct (decide (fd = wfd)) as [->|?]);
    rewrite ?lookup_delete_eq, ?lookup_delete_ne, ?lookup_delete_eq by done; done.
Qed.

Lemma read_on_closed_descriptor E self rfd n t w :
  read_fd self = Some rfd → fdtab w !! rfd = None →
  (t = None → 0 ≤ n → (read E self n t w).1 = Raise (OSError EBADF)) ∧
  ∃ e, (read E self n t w).1 = Raise e ∧ e ≠ TransportClosedError ∧ e ≠ IoTimeoutError.
Proof.
  intros Hr Hc. rewrite read_split.
  assert (Hopen : is_open w rfd = false).
  { unfold is_open. apply bool_decide_eq_false_2. rewrite Hc. by intros [? ?]. }
  destruct t as [t|].
  - split; [done|].
    destruct (decide (0 ≤ rfd < FD_SETSIZE)) as [Hrange|Hrange].
    + pose proof (read_wait_some E self rfd t w Hr Hrange) as Hwait. simpl in Hwait.
      rewrite Hopen in Hwait. rewrite (bind_raise _ _ _ _ _ Hwait). simpl. eauto.
    + destruct (read_wait_out_of_range E self rfd t w Hr Hrange) as (e & Hwait & He).
      rewrite (bind_raise _ _ _ _ _ Hwait). simpl. exists e.
      by destruct He as [-> | ->].
  - rewrite (bind_ok _ _ _ _ _ (read_wait_none E self w)).
    unfold read_attempt, os_read. rewrite Hr. unmonad.
    destruct (Z.ltb_spec n 0).
    + split; [lia|]. simpl. eauto.
    + rewrite Hopen. simpl. split; [done|]. eauto.
Qed.

Lemma write_on_closed_descriptor E self wfd data t w :
  write_fd self = Some wfd → fdtab w !! wfd = None → data ≠ [] →
  (write E self data t w).1 = Raise (OSError EBADF) ∧
  fdtab (write E self data t w).2 = fdtab w.
Proof.
  intros Hw Hc Hne.
  destruct (write_run_of E self data t w) as (end_time & w0 & r0 & Hf & Ht & Hrun & Hr).
  assert (Hatt : write_attempt E self end_time data w0 =
                 (Raise (OSError EBADF), emit (EvWrite wfd data (Errno EBADF)) w0)).
  { rewrite write_attempt_unfold. unfold os_write, is_open. rewrite Hw, Hf.
    rewrite bool_decide_eq_false_2; [done|]. rewrite Hc. by intros [? ?]. }
  rewrite Hr. clear Hr. remember (write E self data t w).2 as w' eqn:Hw'. clear Hw'.
  inversion Hrun as [|? ? e w1 _ Ha|? ? w1 ? ? _ Ha|? ? k w1 ? ? _ Ha]; subst.
  - done.
  - rewrite Hatt in Ha. injection Ha as <- <-. by split.
  - by rewrite Hatt in Ha.
  - by rewrite Hatt in Ha.
Qed.

(** X19: after a [close] that returned, the transport is of no further
    use, and says so with an error of the library, not with
    [TransportClosedError]: every [read] raises, and neither
    [TransportClosedError] nor [IoTimeoutError]; every [write] of a
    non-empty payload raises [OSError] with [EBADF]; [write] of an empty
    payload still returns 0. *)
Theorem io_after_close E self rfd wfd w :
  read_fd self = Some rfd → write_fd self = Some wfd → (close self w).1 = Ok tt →
  (∀ n t, ∃ e, (read E self n t (close self w).2).1 = Raise e ∧
               e ≠ TransportClosedError ∧ e ≠ IoTimeoutError) ∧
  (∀ data t, data ≠ [] → (write E self data t (close self w).2).1 = Raise (OSError EBADF)) ∧
  (∀ t, (write E self [] t (close self w).2).1 = Ok 0%nat).
Proof.
  intros Hr Hw Hok. destruct (close self w) as [r w1] eqn:Hc. simpl in *. subst r.
  apply close_ok_released in Hc as [Hcr Hcw].
  split; [|split].
  - intros n t. by destruct (read_on_closed_descriptor E self rfd n t w1 Hr (Hcr _ Hr)).
  - intros data t Hne. by apply (write_on_closed_descriptor E self wfd data t w1); auto.
  - intros t. unfold write, deadline. destruct t as [t|]; unmonad; simpl; by simp write_loop.
Qed.

Lemma io_after_close_witness :
  (∃ e, (read flowing t34 5 (Some 1) (close t34 w34).2).1 = Raise e ∧
        e ≠ TransportClosedError ∧ e ≠ IoTimeoutError) ∧
  (write flowing t34 hello None (close t34 w34).2).1 = Raise (OSError EBADF).
Proof.
  destruct (io_after_close flowing t34 3 4 w34 eq_refl eq_refl) as (Hread & Hwrite & _);
    [by vm_compute|].
  split; [apply Hread|by apply Hwrite].
Defined.

(** ** Construction and the descriptor table *)

Lemma fcntl_not_open_raises ev fd w :
  ∃ e w1, fcntl_not_open ev fd w = (Raise e, w1) ∧ fdtab w1 = fdtab w.
Proof. unfold fcntl_not_open. repeat case_match; by eexists _, _. Qed.

Lemma validate_configure_effect E fd w :
  let d := fd_number fd in
  let w' := (_validate_configure_fd E fd w).2 in
  (∀ fd', is_Some (fdtab w' !! fd') ↔ is_Some (fdtab w !! fd')) ∧
  (∀ v, (_validate_configure_fd E fd w).1 = Ok v → v = d ∧ is_Some (fdtab w !! d)).
Proof.
  intros d. unfold _validate_configure_fd, fcntl_getfl, fcntl_setfl. unmonad. fold d.
  destruct (fdtab w !! d) as [fl|] eqn:Hd; simpl.
  2:{ destruct (fcntl_not_open_raises (EvGetFl d (Errno EBADF)) d w) as (e & w1 & -> & Hf).
      simpl. rewrite Hf. by split. }
  destruct (Z.land fl O_NONBLOCK =? 0); simpl.
  - rewrite Hd. destruct (setfl_out E _ _ _ _) as [fl' ret].
    assert (Hdom : ∀ fd', is_Some (<[d:=fl']> (fdtab w) !! fd') ↔ is_Some (fdtab w !! fd')).
    { intros fd'. destruct (decide (fd' = d)) as [->|Hne].
      - rewrite lookup_insert_eq, Hd. split; by eexists.
      - by rewrite lookup_insert_ne. }
    destruct (Z.land ret O_NONBLOCK =? 0); simpl; (split; [done|]); [done|].
    intros v [= <-]. split; [done|]. by eexists.
  - split; [done|]. intros v [= <-]. split; [done|]. by eexists.
Qed.

(** X20: construction neither opens nor closes a descriptor, whether it
    succeeds or raises: the descriptors open afterwards are the ones that
    were open before.  When it succeeds, the transport holds the numbers of
    the two descriptors it was given, and both are open. *)
Theorem init_opens_and_closes_nothing E rfd wfd w :
  let w' := (__init__ E rfd wfd w).2 in
  (∀ fd, is_Some (fdtab w' !! fd) ↔ is_Some (fdtab w !! fd)) ∧
  (∀ self, (__init__ E rfd wfd w).1 = Ok self →
     read_fd self = Some (fd_number rfd) ∧ write_fd self = Some (fd_number wfd) ∧
     is_Some (fdtab w' !! fd_number rfd) ∧ is_Some (fdtab w' !! fd_number wfd)).
Proof.
  unfold __init__. unmonad.
  destruct (validate_configure_effect E rfd w) as (Hr2 & Hr3).
  destruct (_validate_configure_fd E rfd w) as [[r|e] w1]; simpl in *; [|by split].
  destruct (validate_configure_effect E wfd w1) as (Hw2 & Hw3).
  destruct (_validate_configure_fd E wfd w1) as [[wr|e] w2]; simpl in *.
  - split; [intros fd; by rewrite Hw2, Hr2|].
    intros self [= <-]. simpl. destruct (Hr3 _ eq_refl) as [-> Hor].
    destruct (Hw3 _ eq_refl) as [-> How]. repeat split.
    + by rewrite Hw2, Hr2.
    + by rewrite Hw2.
  - split; [intros fd; by rewrite Hw2, Hr2|]. done.
Qed.
